(** * BadgerDB buffer manager ([BufMgr/src/buffer.cpp])

    A shallow embedding of the buffer manager: the descriptor table, the
    buffer pool, the page-identity hash table and the clock hand are the
    fields of one state record, and every method of [BufMgr] is a computation
    in a small state-and-exception monad over that record.  A C++ exception
    leaves the state as it was when the exception was thrown, so [Throw]
    carries the state reached so far.

    Machine integers ([std::uint32_t] frame and page numbers) are [N].  The
    arithmetic the source does on them is [bufs - 1] in the constructor and
    [(clockHand + 1) % numBufs] in [advanceClock], both written with their
    32-bit wrap-around, and the two loop counters, which stay below
    [numBufs + 1]. *)

From Stdlib Require Import NArith Lia.
From stdpp Require Import base option list gmap.

Local Open Scope N_scope.

(** ** Collaborator types *)

(** A [File*] is the address of a file object; [NULL] is address 0. *)
Abbreviation File := N (only parsing).
Abbreviation PageId := N (only parsing).
Abbreviation FrameId := N (only parsing).

Definition NULL : File := 0.

(** The manager never looks inside a page: a page is its bytes. *)
Definition Page : Type := list N.

Definition wrap32 (x : N) : N := x mod 2 ^ 32.

(** ** Frame descriptors *)

(** Modelled from the spec: [BufDesc] is declared in [buffer.h], which is not
    part of the sources.  Its fields are the ones [buffer.cpp] reads and
    writes; the spec gives their types: [valid], [dirty] and [refbit] are
    booleans, the file identity is a nullable reference, and the pin count is
    a non-negative integer. *)
Record BufDesc : Type := mkBufDesc {
  frameNo : FrameId;
  file : File;
  pageNo : PageId;
  pinCnt : N;
  dirty : bool;
  valid : bool;
  refbit : bool
}.

(** Modelled from the spec: [Page::INVALID_NUMBER] is declared in a header
    that is not part of the sources; the spec only says that a cleared frame
    carries no identity.  Page number 0 stands for "no page". *)
Definition INVALID_NUMBER : PageId := 0.

(** Modelled from the spec: [BufDesc::Clear] (declared in [buffer.h], which is
    not part of the sources) "resets the descriptor to the empty state": the
    frame is invalid, has pin count 0, is not dirty, and carries no identity
    (the file reference is nullable).  The reference bit is a recency hint of
    a resident page and is dropped with it. *)
Definition BufDesc_Clear (d : BufDesc) : BufDesc :=
  {| frameNo := frameNo d; file := NULL; pageNo := INVALID_NUMBER;
     pinCnt := 0; dirty := false; valid := false; refbit := false |}.

(** Modelled from the spec: [BufDesc::Set] (declared in [buffer.h]) "sets the
    descriptor's identity, pin count = 1, dirty = false, valid = true"; the
    reference bit "is set on every access". *)
Definition BufDesc_Set (f : File) (p : PageId) (d : BufDesc) : BufDesc :=
  {| frameNo := frameNo d; file := f; pageNo := p;
     pinCnt := 1; dirty := false; valid := true; refbit := true |}.

Definition with_pinCnt (n : N) (d : BufDesc) : BufDesc :=
  {| frameNo := frameNo d; file := file d; pageNo := pageNo d;
     pinCnt := n; dirty := dirty d; valid := valid d; refbit := refbit d |}.

Definition with_dirty (b : bool) (d : BufDesc) : BufDesc :=
  {| frameNo := frameNo d; file := file d; pageNo := pageNo d;
     pinCnt := pinCnt d; dirty := b; valid := valid d; refbit := refbit d |}.

Definition with_refbit (b : bool) (d : BufDesc) : BufDesc :=
  {| frameNo := frameNo d; file := file d; pageNo := pageNo d;
     pinCnt := pinCnt d; dirty := dirty d; valid := valid d; refbit := b |}.

(** Modelled from the spec: the [BufDesc] constructor (in [buffer.h]) leaves a
    fresh descriptor in the empty state; [BufMgr::BufMgr] then stores the
    frame number and [valid = false]. *)
Definition fresh_desc (i : FrameId) : BufDesc :=
  {| frameNo := i; file := NULL; pageNo := INVALID_NUMBER;
     pinCnt := 0; dirty := false; valid := false; refbit := false |}.

(** ** Calls on the file collaborator

    The [File] class is external.  Each call the manager makes on it is
    recorded, most recent first, in the ghost field [ioLog]; what the
    collaborator answers (the page read, the page number allocated) is an
    input of the operation that makes the call. *)

Inductive IOEvent : Type :=
  | EvReadPage (f : File) (p : PageId)
  | EvWritePage (f : File) (pg : Page)
  | EvAllocatePage (f : File) (p : PageId)
  | EvDeletePage (f : File) (p : PageId).

(** ** Manager state *)

Record BufMgr : Type := mkBufMgr {
  numBufs : N;
  bufDescTable : list BufDesc;
  bufPool : list Page;
  hashTable : gmap (File * PageId) FrameId;
  clockHand : FrameId;
  ioLog : list IOEvent
}.

(** [bufDescTable[i]] and [bufPool[i]].  An index past the end of the array
    is undefined behaviour in the source; the model reads a default there and
    writes nothing, and the well-formedness predicate [wf] below keeps every
    index the code uses in range. *)
Definition desc (s : BufMgr) (i : FrameId) : BufDesc :=
  default (fresh_desc i) (bufDescTable s !! N.to_nat i).

Definition page_at (s : BufMgr) (i : FrameId) : Page :=
  default [] (bufPool s !! N.to_nat i).

Definition set_desc (i : FrameId) (d : BufDesc) (s : BufMgr) : BufMgr :=
  {| numBufs := numBufs s;
     bufDescTable := <[N.to_nat i := d]> (bufDescTable s);
     bufPool := bufPool s; hashTable := hashTable s;
     clockHand := clockHand s; ioLog := ioLog s |}.

Definition set_page (i : FrameId) (pg : Page) (s : BufMgr) : BufMgr :=
  {| numBufs := numBufs s; bufDescTable := bufDescTable s;
     bufPool := <[N.to_nat i := pg]> (bufPool s); hashTable := hashTable s;
     clockHand := clockHand s; ioLog := ioLog s |}.

Definition set_hashTable (h : gmap (File * PageId) FrameId) (s : BufMgr) : BufMgr :=
  {| numBufs := numBufs s; bufDescTable := bufDescTable s;
     bufPool := bufPool s; hashTable := h;
     clockHand := clockHand s; ioLog := ioLog s |}.

Definition set_clockHand (h : FrameId) (s : BufMgr) : BufMgr :=
  {| numBufs := numBufs s; bufDescTable := bufDescTable s;
     bufPool := bufPool s; hashTable := hashTable s;
     clockHand := h; ioLog := ioLog s |}.

Definition log_io (e : IOEvent) (s : BufMgr) : BufMgr :=
  {| numBufs := numBufs s; bufDescTable := bufDescTable s;
     bufPool := bufPool s; hashTable := hashTable s;
     clockHand := clockHand s; ioLog := e :: ioLog s |}.

(** ** The state-and-exception monad *)

Inductive Exn : Type :=
  | BufferExceededException
  | PageNotPinnedException (f : File) (p : PageId) (fr : FrameId)
  | PagePinnedException (f : File) (p : PageId) (fr : FrameId)
  | HashNotFoundException
  | InvalidPageException.

Inductive Outcome (A : Type) : Type :=
  | Ok (a : A)
  | Throw (e : Exn).
Arguments Ok {A} a.
Arguments Throw {A} e.

Definition M (A : Type) : Type := BufMgr → Outcome A * BufMgr.

#[global] Instance M_ret : MRet M := λ A a s, (Ok a, s).

#[global] Instance M_bind : MBind M := λ A B k m s,
  match m s with
  | (Ok a, s') => k a s'
  | (Throw e, s') => (Throw e, s')
  end.

Definition throw {A} (e : Exn) : M A := λ s, (Throw e, s).
Definition get : M BufMgr := λ s, (Ok s, s).
Definition modify (f : BufMgr → BufMgr) : M unit := λ s, (Ok tt, f s).

(** [try { body } catch (HashNotFoundException) { handler }]: only an
    exception of that class raised by [body] is caught; the handler runs in
    the state [body] left, and what the handler throws propagates. *)
Definition try_catch_HashNotFound {A} (body handler : M A) : M A := λ s,
  match body s with
  | (Throw HashNotFoundException, s') => handler s'
  | r => r
  end.

(** ** The page-identity hash table

    Modelled from the spec: [BufHashTbl] is declared in a header that is not
    part of the sources.  It is "an associative map" from (file, page number)
    to frame with unique keys; [lookup] "fails with a distinct not-found
    condition when absent", and so does [remove] (it is the same
    [HashNotFoundException], which [disposePage] catches around its
    [remove]).  The spec names no failure of [insert]: it is the map's
    insertion, and the manager only ever inserts an identity that is not in
    the index (see [admissible] for [allocPage]). *)

Definition hash_lookup (f : File) (p : PageId) : M FrameId := λ s,
  match hashTable s !! (f, p) with
  | Some fr => (Ok fr, s)
  | None => (Throw HashNotFoundException, s)
  end.

Definition hash_insert (f : File) (p : PageId) (fr : FrameId) : M unit :=
  modify (λ s, set_hashTable (<[(f, p) := fr]> (hashTable s)) s).

Definition hash_remove (f : File) (p : PageId) : M unit := λ s,
  match hashTable s !! (f, p) with
  | Some _ => (Ok tt, set_hashTable (delete (f, p) (hashTable s)) s)
  | None => (Throw HashNotFoundException, s)
  end.

(** ** The file collaborator *)

(** [file->readPage(pageNo)]: [answer] is what the file holds at that page
    number, [None] when the page does not exist. *)
Definition File_readPage (f : File) (p : PageId) (answer : option Page) : M Page :=
  modify (log_io (EvReadPage f p)) ;;
  match answer with
  | Some pg => mret pg
  | None => throw InvalidPageException
  end.

Definition File_writePage (f : File) (pg : Page) : M unit :=
  modify (log_io (EvWritePage f pg)).

(** [file->allocatePage().page_number()]: [answer] is the number the file
    gives the new page. *)
Definition File_allocatePage (f : File) (answer : PageId) : M PageId :=
  modify (log_io (EvAllocatePage f answer)) ;; mret answer.

Definition File_deletePage (f : File) (p : PageId) : M unit :=
  modify (log_io (EvDeletePage f p)).

(** ** [BufMgr::BufMgr] *)

Definition BufMgr_new (bufs : N) : BufMgr :=
  {| numBufs := bufs;
     bufDescTable := map (λ i, fresh_desc (N.of_nat i)) (seq 0 (N.to_nat bufs));
     bufPool := replicate (N.to_nat bufs) [];
     hashTable := ∅;
     clockHand := wrap32 (bufs + 2 ^ 32 - 1);
     ioLog := [] |}.

(** ** [BufMgr::advanceClock] *)

(** [% numBufs] is undefined for an empty pool; [wf] has [0 < numBufs]. *)
Definition advanceClock : M unit :=
  modify (λ s, set_clockHand (wrap32 (clockHand s + 1) mod numBufs s) s).

(** ** [BufMgr::allocBuf] *)

(** One turn of the [for] loop: [Some frame] is [return] with the frame
    stored in the out-parameter, [None] is [continue]. *)
Definition allocBuf_body : M (option FrameId) :=
  advanceClock ;;
  s ← get ;
  let h := clockHand s in
  let d := desc s h in
  if negb (valid d) then mret (Some h)
  else if refbit d then
    modify (set_desc h (with_refbit false d)) ;; mret None
  else if 0 <? pinCnt d then mret None
  else
    (if dirty d then File_writePage (file d) (page_at s h) else mret tt) ;;
    hash_remove (file d) (pageNo d) ;;
    modify (λ s', set_desc h (BufDesc_Clear (desc s' h)) s') ;;
    mret (Some h).

(** [for (FrameId i = 0; i <= numBufs; i++)]: [numBufs + 1] turns, then the
    [throw].  (The counter is 32 bits wide, so this is the loop for
    [numBufs < 2^32 - 1], which [wf] requires.) *)
Fixpoint allocBuf_loop (turns : nat) : M FrameId :=
  match turns with
  | O => throw BufferExceededException
  | S turns' =>
      r ← allocBuf_body ;
      match r with
      | Some fr => mret fr
      | None => allocBuf_loop turns'
      end
  end.

Definition allocBuf : M FrameId := λ s,
  allocBuf_loop (S (N.to_nat (numBufs s))) s.

(** ** [BufMgr::readPage]

    The result is the frame whose buffer [page] points to
    ([page = &bufPool[retFrameID]]). *)
Definition readPage (f : File) (p : PageId) (onDisk : option Page) : M FrameId :=
  retFrameID ← try_catch_HashNotFound
    (fr ← hash_lookup f p ;
     s ← get ;
     modify (set_desc fr (with_pinCnt (pinCnt (desc s fr) + 1) (desc s fr))) ;;
     mret fr)
    (fr ← allocBuf ;
     pg ← File_readPage f p onDisk ;
     modify (set_page fr pg) ;;
     hash_insert f p fr ;;
     modify (λ s, set_desc fr (BufDesc_Set f p (desc s fr)) s) ;;
     mret fr) ;
  modify (λ s, set_desc retFrameID (with_refbit true (desc s retFrameID)) s) ;;
  mret retFrameID.

(** ** [BufMgr::unPinPage] *)
Definition unPinPage (f : File) (p : PageId) (dirtyArg : bool) : M unit :=
  try_catch_HashNotFound
    (fr ← hash_lookup f p ;
     s ← get ;
     if pinCnt (desc s fr) =? 0 then throw (PageNotPinnedException f p fr)
     else
       modify (λ s, set_desc fr (with_dirty true (desc s fr)) s) ;;
       modify (λ s, set_desc fr (with_pinCnt (pinCnt (desc s fr) - 1) (desc s fr)) s))
    (mret tt).

(** ** [BufMgr::flushFile] *)

Definition flushFile_body (f : File) (i : FrameId) : M unit :=
  s ← get ;
  if file (desc s i) =? f then
    (if 0 <? pinCnt (desc s i)
     then throw (PagePinnedException f (pageNo (desc s i)) i)
     else mret tt) ;;
    (if dirty (desc s i) then
       File_writePage (file (desc s i)) (page_at s i) ;;
       modify (λ s', set_desc i (with_dirty false (desc s' i)) s')
     else mret tt) ;;
    hash_remove f (pageNo (desc s i)) ;;
    modify (λ s', set_desc i (BufDesc_Clear (desc s' i)) s')
  else mret tt.

(** [for (FrameId i = 0; i < numBufs; i++)], as the frames still to visit. *)
Fixpoint flushFile_loop (f : File) (turns : nat) (i : FrameId) : M unit :=
  match turns with
  | O => mret tt
  | S turns' => flushFile_body f i ;; flushFile_loop f turns' (i + 1)
  end.

Definition flushFile (f : File) : M unit := λ s,
  flushFile_loop f (N.to_nat (numBufs s)) 0 s.

(** ** [BufMgr::allocPage]

    [newPage] is the number the file gives the new page and [content] is the
    answer of the [file->readPage(newPageId)] that follows, [None] when that
    read throws.  The index entry is inserted before the read, as in the
    source, and nothing catches what the read throws. *)
Definition allocPage (f : File) (newPage : PageId) (content : option Page)
  : M (PageId * FrameId) :=
  newPageId ← File_allocatePage f newPage ;
  newFrameId ← allocBuf ;
  hash_insert f newPageId newFrameId ;;
  pg ← File_readPage f newPageId content ;
  modify (set_page newFrameId pg) ;;
  modify (λ s, set_desc newFrameId (BufDesc_Set f newPageId (desc s newFrameId)) s) ;;
  mret (newPageId, newFrameId).

(** ** [BufMgr::disposePage] *)
Definition disposePage (f : File) (p : PageId) : M unit :=
  try_catch_HashNotFound
    (fr ← hash_lookup f p ;
     modify (λ s, set_desc fr (BufDesc_Clear (desc s fr)) s) ;;
     hash_remove f p)
    (mret tt) ;;
  File_deletePage f p.

(** ** [BufMgr::printSelf]

    The method writes every descriptor to [std::cout] and then the number of
    valid frames; it changes nothing.  What [BufDesc::Print] writes is in
    [buffer.h], outside the sources, so the text is not modelled: the result
    here is the value of [validFrames] that the last line prints.  The
    counter is an [int]; it counts at most [numBufs] frames, so it is exact
    for pools of fewer than [2^31] frames. *)
Fixpoint printSelf_loop (s : BufMgr) (turns : nat) (i : FrameId)
    (validFrames : N) : N :=
  match turns with
  | O => validFrames
  | S turns' =>
      printSelf_loop s turns' (i + 1)
        (if valid (desc s i) then validFrames + 1 else validFrames)
  end.

Definition printSelf : M N := λ s,
  (Ok (printSelf_loop s (N.to_nat (numBufs s)) 0 0), s).

(** ** Public operations as data *)

(** One call of a public method, together with what the file collaborator
    answers during the call. *)
Inductive Op : Type :=
  | OpReadPage (f : File) (p : PageId) (onDisk : option Page)
  | OpUnPinPage (f : File) (p : PageId) (dirtyArg : bool)
  | OpAllocPage (f : File) (newPage : PageId) (content : option Page)
  | OpDisposePage (f : File) (p : PageId)
  | OpFlushFile (f : File).

(** The call with its result dropped: what is left is whether it returned or
    threw, and the state. *)
Definition discard {A} (m : M A) : M unit := λ s,
  match m s with
  | (Ok _, s') => (Ok tt, s')
  | (Throw e, s') => (Throw e, s')
  end.

Definition run_op (o : Op) : M unit :=
  match o with
  | OpReadPage f p onDisk => discard (readPage f p onDisk)
  | OpUnPinPage f p b => unPinPage f p b
  | OpAllocPage f np c => discard (allocPage f np c)
  | OpDisposePage f p => disposePage f p
  | OpFlushFile f => flushFile f
  end.

Definition exec (o : Op) (s : BufMgr) : BufMgr := (run_op o s).2.

Definition run_ops (ops : list Op) (s : BufMgr) : BufMgr :=
  foldl (λ s o, exec o s) s ops.

(** [m], started in [s], throws [e]. *)
Definition raises {A} (m : M A) (s : BufMgr) (e : Exn) : Prop :=
  (m s).1 = Throw e.

Definition is_PageNotPinned (e : Exn) : bool :=
  match e with PageNotPinnedException _ _ _ => true | _ => false end.

(** What the callers and the file collaborator owe the manager: [readPage]
    and [allocPage] dereference [file], so it is a live file object; and the
    page number [allocatePage] hands out is fresh, so that page is not in the
    pool. *)
Definition admissible (o : Op) (s : BufMgr) : Prop :=
  match o with
  | OpReadPage f _ _ => f ≠ NULL
  | OpAllocPage f np _ => f ≠ NULL ∧ hashTable s !! (f, np) = None
  | _ => True
  end.

(** The states a manager built with [bufs] frames can be in. *)
Inductive reachable (bufs : N) : BufMgr → Prop :=
  | reachable_new : reachable bufs (BufMgr_new bufs)
  | reachable_step s o :
      reachable bufs s → admissible o s → reachable bufs (exec o s).

(** An [allocPage] whose read of the new page throws. *)
Definition alloc_read_fails (o : Op) : bool :=
  match o with
  | OpAllocPage _ _ None => true
  | _ => false
  end.

(** The states a manager built with [bufs] frames can be in as long as no
    [allocPage] had its read of the new page fail. *)
Inductive reachable_reads_ok (bufs : N) : BufMgr → Prop :=
  | reachable_reads_ok_new : reachable_reads_ok bufs (BufMgr_new bufs)
  | reachable_reads_ok_step s o :
      reachable_reads_ok bufs s → admissible o s →
      alloc_read_fails o = false → reachable_reads_ok bufs (exec o s).

(** ** Invariants *)

(** The invariant set of the data model, frame by frame: an invalid frame has
    pin count 0 and is clean; an index entry names a valid frame of that very
    identity; a valid frame is the one the index gives for its identity; so no
    two valid frames carry one identity. *)
Record state_invariant (s : BufMgr) : Prop := {
  inv_cleared : ∀ i, i < numBufs s → valid (desc s i) = false →
    pinCnt (desc s i) = 0 ∧ dirty (desc s i) = false;
  inv_index_agrees : ∀ f p i, hashTable s !! (f, p) = Some i →
    i < numBufs s ∧ valid (desc s i) = true ∧
    file (desc s i) = f ∧ pageNo (desc s i) = p;
  inv_indexed : ∀ i, i < numBufs s → valid (desc s i) = true →
    hashTable s !! (file (desc s i), pageNo (desc s i)) = Some i;
  inv_unique : ∀ i j, i < numBufs s → j < numBufs s →
    valid (desc s i) = true → valid (desc s j) = true →
    file (desc s i) = file (desc s j) → pageNo (desc s i) = pageNo (desc s j) →
    i = j
}.

(** Well-formed states: the invariant the proofs carry.  It adds the array
    sizes, the range of the clock hand, and that a frame holds a null file
    pointer exactly when it is invalid. *)
Record wf (s : BufMgr) : Prop := {
  wf_numBufs : 0 < numBufs s < 2 ^ 32 - 1;
  wf_table_len : length (bufDescTable s) = N.to_nat (numBufs s);
  wf_pool_len : length (bufPool s) = N.to_nat (numBufs s);
  wf_hand : clockHand s < numBufs s;
  wf_invalid : ∀ i, i < numBufs s → valid (desc s i) = false →
    pinCnt (desc s i) = 0 ∧ dirty (desc s i) = false ∧ file (desc s i) = NULL;
  wf_valid : ∀ i, i < numBufs s → valid (desc s i) = true →
    file (desc s i) ≠ NULL ∧
    hashTable s !! (file (desc s i), pageNo (desc s i)) = Some i;
  wf_index : ∀ f p i, hashTable s !! (f, p) = Some i →
    i < numBufs s ∧ valid (desc s i) = true ∧
    file (desc s i) = f ∧ pageNo (desc s i) = p
}.

(** A page is resident when the index has an entry for it. *)
Definition resident (s : BufMgr) (f : File) (p : PageId) (fr : FrameId) : Prop :=
  hashTable s !! (f, p) = Some fr.

(** Two descriptors that differ at most in pin count and dirty flag. *)
Definition same_but_pin_dirty (d d' : BufDesc) : Prop :=
  frameNo d' = frameNo d ∧ file d' = file d ∧ pageNo d' = pageNo d ∧
  valid d' = valid d ∧ refbit d' = refbit d.

(** What [flushFile] does to one unpinned frame of the file: the write-back
    if the frame is dirty, the index entry dropped, the descriptor cleared. *)
Definition flush_frame (f : File) (i : FrameId) (s : BufMgr) : BufMgr :=
  set_desc i (BufDesc_Clear (desc s i))
    (set_hashTable (delete (f, pageNo (desc s i)) (hashTable s))
       (if dirty (desc s i) then log_io (EvWritePage f (page_at s i)) s else s)).

(** Frame [j] after [flushFile f] has dealt with it, where [new] are the
    collaborator calls the flush made: a frame of the file was unpinned, is
    now empty and out of the index, and was written back if it was dirty; a
    frame of another file is as it was. *)
Definition frame_flushed (f : File) (s s' : BufMgr) (new : list IOEvent)
    (j : FrameId) : Prop :=
  (file (desc s j) = f →
     pinCnt (desc s j) = 0 ∧ desc s' j = BufDesc_Clear (desc s j) ∧
     hashTable s' !! (f, pageNo (desc s j)) = None ∧
     (dirty (desc s j) = true → EvWritePage f (page_at s j) ∈ new)) ∧
  (file (desc s j) ≠ f → desc s' j = desc s j).

(** ** The allocator's view of a frame *)

(** The frame the next turn of the allocator's loop inspects. *)
Definition next_hand (s : BufMgr) : FrameId :=
  wrap32 (clockHand s + 1) mod numBufs s.

(** How many frames the hand at [h] passes before it lands on [t]: frame [t]
    is inspected in turn [frames_ahead h t n + 1]. *)
Definition frames_ahead (h t n : N) : N :=
  if h <? t then t - h - 1 else t + n - h - 1.

(** A frame the allocator takes as soon as it inspects it: an empty frame, or
    a valid one with its reference bit clear and no pin. *)
Definition takeable (s : BufMgr) (t : FrameId) : Prop :=
  valid (desc s t) = false ∨
  (refbit (desc s t) = false ∧ pinCnt (desc s t) = 0).

(** A frame the allocator passes over when it inspects it: a valid frame that
    is referenced or pinned. *)
Definition passed_over (s : BufMgr) (t : FrameId) : Prop :=
  valid (desc s t) = true ∧
  (refbit (desc s t) = true ∨ 0 < pinCnt (desc s t)).

(** What a scan of the allocator may do to a descriptor it passes over:
    nothing, or clear the reference bit of a valid frame. *)
Definition refbit_cleared (d d' : BufDesc) : Prop :=
  d' = d ∨ (valid d = true ∧ d' = with_refbit false d).

(** The collaborator calls an eviction of frame [fr] makes: the write-back
    of its buffer when the frame is dirty, nothing otherwise. *)
Definition writeback_of (s : BufMgr) (fr : FrameId) : list IOEvent :=
  if dirty (desc s fr)
  then [EvWritePage (file (desc s fr)) (page_at s fr)] else [].

(** What the allocator did to the frame it returns: either the frame was
    empty and nothing else happened, or it held an unpinned page, which left
    the index after its write-back. *)
Definition frame_taken (s s' : BufMgr) (fr : FrameId) : Prop :=
  (valid (desc s fr) = false ∧ desc s' fr = desc s fr ∧
   hashTable s' = hashTable s ∧ ioLog s' = ioLog s) ∨
  (valid (desc s fr) = true ∧ pinCnt (desc s fr) = 0 ∧
   desc s' fr = BufDesc_Clear (desc s fr) ∧
   hashTable s' = delete (file (desc s fr), pageNo (desc s fr)) (hashTable s) ∧
   ioLog s' = writeback_of s fr ++ ioLog s).

(** The fetches of the pages [ps] of file [f], in order; each page comes
    with what the file holds for it. *)
Definition fetch_ops (f : File) (ps : list (PageId * Page)) : list Op :=
  (λ pp, OpReadPage f pp.1 (Some pp.2)) <$> ps.

(** ** Scenarios *)

(** The state after [n] turns of the allocator's loop, none of which
    returned. *)
Definition allocBuf_turns (n : nat) (s : BufMgr) : BufMgr :=
  Nat.iter n (λ s, (allocBuf_body s).2) s.

(** A pool of three frames holding pages 1, 2, 3 of file 7, each fetched once
    and unpinned once. *)
Definition three_pages_unpinned : BufMgr :=
  run_ops [OpReadPage 7 1 (Some [1]); OpReadPage 7 2 (Some [2]);
           OpReadPage 7 3 (Some [3]); OpUnPinPage 7 1 false;
           OpUnPinPage 7 2 false; OpUnPinPage 7 3 false] (BufMgr_new 3).

(** A pool of two frames: page 1 of file 7 fetched and still pinned, page 2
    fetched and unpinned. *)
Definition one_pinned_one_unpinned : BufMgr :=
  run_ops [OpReadPage 7 1 (Some [1]); OpReadPage 7 2 (Some [2]);
           OpUnPinPage 7 2 false] (BufMgr_new 2).

(** A pool of two frames, both holding a page that is still pinned. *)
Definition two_pages_pinned : BufMgr :=
  run_ops [OpReadPage 7 1 (Some [1]); OpReadPage 7 2 (Some [2])] (BufMgr_new 2).

(** ** Basic facts about the state accessors *)

Lemma desc_set_desc_eq s i d :
  (N.to_nat i < length (bufDescTable s))%nat → desc (set_desc i d s) i = d.
Proof.
  intros Hi. unfold desc, set_desc; simpl.
  by rewrite list_lookup_insert_eq.
Qed.

Lemma desc_set_desc_ne s i j d :
  i ≠ j → desc (set_desc i d s) j = desc s j.
Proof.
  intros Hne. unfold desc, set_desc; simpl.
  rewrite list_lookup_insert_ne; [done | lia].
Qed.

Lemma set_desc_set_desc s i d1 d2 :
  set_desc i d2 (set_desc i d1 s) = set_desc i d2 s.
Proof. unfold set_desc; simpl. by rewrite list_insert_insert_eq. Qed.

Lemma set_desc_same s i :
  set_desc i (desc s i) s = s.
Proof.
  destruct s as [n t pl h c l]. unfold set_desc, desc; simpl. f_equal.
  destruct (t !! N.to_nat i) as [d|] eqn:E; simpl.
  - by apply list_insert_id.
  - apply list_insert_ge. by apply lookup_ge_None.
Qed.

Lemma wf_in_range s i :
  wf s → i < numBufs s → (N.to_nat i < length (bufDescTable s))%nat.
Proof. intros Hwf Hi. rewrite (wf_table_len _ Hwf). lia. Qed.

(** ** Updates that keep a state well-formed *)

Lemma wf_set_clockHand s h :
  wf s → h < numBufs s → wf (set_clockHand h s).
Proof. intros [] Hh. by split. Qed.

Lemma wf_log_io s e : wf s → wf (log_io e s).
Proof. intros []. by split. Qed.

Lemma wf_set_page s i pg : wf s → wf (set_page i pg s).
Proof.
  intros []. split; try done.
  simpl. by rewrite length_insert.
Qed.

(** Rewriting a frame's descriptor without touching its identity. *)
Lemma wf_set_desc_same_identity s i d :
  wf s → i < numBufs s →
  valid d = valid (desc s i) → file d = file (desc s i) →
  pageNo d = pageNo (desc s i) →
  (valid d = false → pinCnt d = 0 ∧ dirty d = false) →
  wf (set_desc i d s).
Proof.
  intros Hwf Hi Hv Hf Hp Hc.
  pose proof (wf_in_range _ _ Hwf Hi) as Hr.
  assert (Hd : ∀ j, j ≠ i → desc (set_desc i d s) j = desc s j)
    by (intros; by apply desc_set_desc_ne).
  assert (Hi' : desc (set_desc i d s) i = d) by by apply desc_set_desc_eq.
  destruct Hwf as [Hn Hl Hpl Hh Hinv Hval Hidx].
  split; simpl; try done.
  - by rewrite length_insert.
  - intros j Hj. destruct (decide (j = i)) as [->|Hne].
    + rewrite Hi'. intros Hvd. destruct (Hc Hvd) as [? ?].
      rewrite Hf. rewrite Hv in Hvd. by destruct (Hinv i Hi Hvd) as (? & ? & ?).
    + rewrite (Hd j Hne). by apply Hinv.
  - intros j Hj. destruct (decide (j = i)) as [->|Hne].
    + rewrite Hi', Hv, Hf, Hp. by apply Hval.
    + rewrite (Hd j Hne). by apply Hval.
  - intros f p j Hlk. destruct (Hidx f p j Hlk) as (? & ? & ? & ?).
    destruct (decide (j = i)) as [->|Hne].
    + by rewrite Hi', Hv, Hf, Hp.
    + by rewrite (Hd j Hne).
Qed.

(** Emptying a valid frame and dropping its index entry. *)
Lemma wf_evict s i :
  wf s → i < numBufs s → valid (desc s i) = true →
  wf (set_desc i (BufDesc_Clear (desc s i))
        (set_hashTable (delete (file (desc s i), pageNo (desc s i)) (hashTable s)) s)).
Proof.
  intros Hwf Hi Hv.
  pose proof (wf_in_range _ _ Hwf Hi) as Hr.
  set (k := (file (desc s i), pageNo (desc s i))).
  set (s1 := set_hashTable (delete k (hashTable s)) s).
  assert (Hd : ∀ j, j ≠ i → desc (set_desc i (BufDesc_Clear (desc s i)) s1) j = desc s j)
    by (intros; by rewrite desc_set_desc_ne).
  assert (Hi' : desc (set_desc i (BufDesc_Clear (desc s i)) s1) i = BufDesc_Clear (desc s i))
    by by apply desc_set_desc_eq.
  destruct Hwf as [Hn Hl Hpl Hh Hinv Hval Hidx].
  split; simpl; try done.
  - by rewrite length_insert.
  - intros j Hj. destruct (decide (j = i)) as [->|Hne].
    + by rewrite Hi'.
    + rewrite (Hd j Hne). by apply Hinv.
  - intros j Hj. destruct (decide (j = i)) as [->|Hne].
    + by rewrite Hi'.
    + rewrite (Hd j Hne). intros Hvj. destruct (Hval j Hj Hvj) as [Hnn Hlk].
      split; [done|]. rewrite lookup_delete_ne; [done|].
      intros Hk. destruct (Hval i Hi Hv) as [_ Hlki].
      fold k in Hlki. rewrite Hk in Hlki. congruence.
  - intros f p j Hlk.
    destruct (decide (k = (f, p))) as [Hk|Hk].
    + rewrite Hk, lookup_delete_eq in Hlk. done.
    + rewrite lookup_delete_ne in Hlk by done.
      destruct (Hidx f p j Hlk) as (? & ? & ? & ?).
      destruct (decide (j = i)) as [->|Hne].
      * exfalso. apply Hk. unfold k. congruence.
      * by rewrite (Hd j Hne).
Qed.

(** Installing a page that is not yet resident in an empty frame. *)
Lemma wf_install s i f p :
  wf s → i < numBufs s → valid (desc s i) = false →
  f ≠ NULL → hashTable s !! (f, p) = None →
  wf (set_desc i (BufDesc_Set f p (desc s i))
        (set_hashTable (<[(f, p) := i]> (hashTable s)) s)).
Proof.
  intros Hwf Hi Hv Hf Hfresh.
  pose proof (wf_in_range _ _ Hwf Hi) as Hr.
  set (s1 := set_hashTable (<[(f, p) := i]> (hashTable s)) s).
  assert (Hd : ∀ j, j ≠ i → desc (set_desc i (BufDesc_Set f p (desc s i)) s1) j = desc s j)
    by (intros; by rewrite desc_set_desc_ne).
  assert (Hi' : desc (set_desc i (BufDesc_Set f p (desc s i)) s1) i = BufDesc_Set f p (desc s i))
    by by apply desc_set_desc_eq.
  destruct Hwf as [Hn Hl Hpl Hh Hinv Hval Hidx].
  split; simpl; try done.
  - by rewrite length_insert.
  - intros j Hj. destruct (decide (j = i)) as [->|Hne].
    + by rewrite Hi'.
    + rewrite (Hd j Hne). by apply Hinv.
  - intros j Hj. destruct (decide (j = i)) as [->|Hne].
    + rewrite Hi'. simpl. intros _. split; [done|]. by rewrite lookup_insert_eq.
    + rewrite (Hd j Hne). intros Hvj. destruct (Hval j Hj Hvj) as [Hnn Hlk].
      split; [done|]. rewrite lookup_insert_ne; [done|].
      intros Hk. rewrite <- Hk in Hlk. congruence.
  - intros g q j Hlk.
    destruct (decide ((f, p) = (g, q))) as [Hk|Hk].
    + rewrite Hk, lookup_insert_eq in Hlk. inversion Hlk; subst j.
      inversion Hk; subst. by rewrite Hi'.
    + rewrite lookup_insert_ne in Hlk by done.
      destruct (Hidx g q j Hlk) as (? & Hvj & ? & ?).
      destruct (decide (j = i)) as [->|Hne]; [congruence|].
      by rewrite (Hd j Hne).
Qed.

Lemma wf_state_invariant s : wf s → state_invariant s.
Proof.
  intros [Hn Hl Hpl Hh Hinv Hval Hidx]. split.
  - intros i Hi Hv. by destruct (Hinv i Hi Hv) as (? & ? & ?).
  - done.
  - intros i Hi Hv. by destruct (Hval i Hi Hv).
  - intros i j Hi Hj Hvi Hvj Hf Hp.
    destruct (Hval i Hi Hvi) as [_ Hli]. destruct (Hval j Hj Hvj) as [_ Hlj].
    rewrite Hf, Hp in Hli. congruence.
Qed.

(** ** The constructor *)

Lemma wrap32_pred bufs :
  0 < bufs < 2 ^ 32 - 1 → wrap32 (bufs + 2 ^ 32 - 1) = bufs - 1.
Proof.
  intros H. unfold wrap32.
  replace (bufs + 2 ^ 32 - 1) with (bufs - 1 + 1 * 2 ^ 32) by lia.
  rewrite N.Div0.mod_add. apply N.mod_small. lia.
Qed.

Lemma desc_BufMgr_new bufs i :
  desc (BufMgr_new bufs) i = fresh_desc i.
Proof.
  unfold desc, BufMgr_new; simpl.
  rewrite list_lookup_fmap.
  destruct (decide (N.to_nat i < N.to_nat bufs)%nat) as [Hlt|Hge].
  - rewrite lookup_seq_lt by done. simpl. by rewrite N2Nat.id.
  - rewrite lookup_seq_ge by lia. done.
Qed.

Lemma wf_BufMgr_new bufs :
  0 < bufs < 2 ^ 32 - 1 → wf (BufMgr_new bufs).
Proof.
  intros H. split.
  - done.
  - simpl. by rewrite length_map, length_seq.
  - simpl. by rewrite length_replicate.
  - simpl. rewrite wrap32_pred by done. lia.
  - intros i _ _. by rewrite desc_BufMgr_new.
  - intros i _. by rewrite desc_BufMgr_new.
  - intros f p i. simpl. by rewrite lookup_empty.
Qed.

(** ** The clock allocator *)

Ltac munfold :=
  unfold mbind, M_bind, mret, M_ret, modify, get, throw,
    hash_lookup, hash_insert, hash_remove,
    File_readPage, File_writePage, File_allocatePage, File_deletePage,
    mbind, M_bind, mret, M_ret, modify, get, throw.

Lemma next_hand_lt s :
  wf s → wrap32 (clockHand s + 1) mod numBufs s < numBufs s.
Proof. intros Hwf. apply N.mod_lt. destruct (wf_numBufs _ Hwf). lia. Qed.

Lemma next_hand_eq s :
  wf s → wrap32 (clockHand s + 1) mod numBufs s = (clockHand s + 1) mod numBufs s.
Proof.
  intros Hwf. unfold wrap32. rewrite (N.mod_small (clockHand s + 1)); [done|].
  destruct (wf_numBufs _ Hwf). pose proof (wf_hand _ Hwf). lia.
Qed.

Lemma allocBuf_body_wf s r s' :
  wf s → allocBuf_body s = (r, s') →
  wf s' ∧ numBufs s' = numBufs s ∧
  (∀ k, hashTable s !! k = None → hashTable s' !! k = None) ∧
  (∃ o, r = Ok o ∧ ∀ fr, o = Some fr → fr < numBufs s ∧ valid (desc s' fr) = false).
Proof.
  intros Hwf.
  pose proof (next_hand_lt _ Hwf) as Hh.
  unfold allocBuf_body, advanceClock. munfold. simpl.
  set (h := wrap32 (clockHand s + 1) mod numBufs s) in *.
  set (s1 := set_clockHand h s).
  assert (Hwf1 : wf s1) by by apply wf_set_clockHand.
  change (desc s1 h) with (desc s h).
  destruct (valid (desc s h)) eqn:Hv; simpl.
  2:{ intros [= <- <-]. split_and!; try done. eexists; split; [done|].
      by intros fr [= <-]. }
  destruct (refbit (desc s h)) eqn:Hr.
  { intros [= <- <-]. split_and!; try done.
    - apply wf_set_desc_same_identity; try done. simpl. congruence.
    - eexists; split; [done|]. done. }
  destruct (0 <? pinCnt (desc s h)) eqn:Hp.
  { intros [= <- <-]. split_and!; try done. eexists; split; [done|]. done. }
  destruct (wf_valid _ Hwf h Hh Hv) as [_ Hlk].
  assert (Hdel : ∀ k, hashTable s !! k = None →
    delete (file (desc s h), pageNo (desc s h)) (hashTable s) !! k = None).
  { intros k Hk. destruct (decide ((file (desc s h), pageNo (desc s h)) = k)) as [<-|Hne].
    - by rewrite lookup_delete_eq.
    - by rewrite lookup_delete_ne. }
  destruct (dirty (desc s h)); simpl; rewrite Hlk; intros [= <- <-].
  - split_and!; try done.
    + by apply (wf_evict (log_io (EvWritePage (file (desc s h)) (page_at s1 h)) s1));
        [apply wf_log_io|..].
    + eexists; split; [done|]. intros fr [= <-]. split; [done|].
      rewrite desc_set_desc_eq; [done|]. by apply (wf_in_range _ _ Hwf).
  - split_and!; try done.
    + by apply (wf_evict s1).
    + eexists; split; [done|]. intros fr [= <-]. split; [done|].
      rewrite desc_set_desc_eq; [done|]. by apply (wf_in_range _ _ Hwf).
Qed.

Lemma allocBuf_loop_wf turns s r s' :
  wf s → allocBuf_loop turns s = (r, s') →
  wf s' ∧ numBufs s' = numBufs s ∧
  (∀ k, hashTable s !! k = None → hashTable s' !! k = None) ∧
  match r with
  | Ok fr => fr < numBufs s ∧ valid (desc s' fr) = false
  | Throw e => e = BufferExceededException
  end.
Proof.
  revert s r s'. induction turns as [|turns IH]; intros s r s' Hwf.
  - simpl. intros [= <- <-]. by split_and!.
  - simpl. unfold mbind, M_bind.
    destruct (allocBuf_body s) as [o s1] eqn:Hb.
    destruct (allocBuf_body_wf _ _ _ Hwf Hb) as (Hwf1 & Hn1 & Hk1 & o' & -> & Hfr).
    destruct o' as [fr|].
    + intros [= <- <-]. destruct (Hfr _ eq_refl). by split_and!.
    + intros Hl. destruct (IH _ _ _ Hwf1 Hl) as (Hwf' & Hn' & Hk' & Hr).
      split_and!; try done.
      * congruence.
      * intros k Hk. by apply Hk', Hk1.
      * destruct r; [by rewrite <- Hn1|done].
Qed.

Lemma allocBuf_wf s r s' :
  wf s → allocBuf s = (r, s') →
  wf s' ∧ numBufs s' = numBufs s ∧
  (∀ k, hashTable s !! k = None → hashTable s' !! k = None) ∧
  match r with
  | Ok fr => fr < numBufs s ∧ valid (desc s' fr) = false
  | Throw e => e = BufferExceededException
  end.
Proof. unfold allocBuf. apply allocBuf_loop_wf. Qed.

#[local] Arguments allocBuf : simpl never.

(** ** Every public operation keeps the state well-formed *)

Lemma readPage_wf f p onDisk s :
  wf s → f ≠ NULL → wf (readPage f p onDisk s).2.
Proof.
  intros Hwf Hf. unfold readPage, try_catch_HashNotFound. munfold.
  destruct (hashTable s !! (f, p)) as [fr|] eqn:Hlk; simpl.
  - destruct (wf_index _ Hwf _ _ _ Hlk) as (Hfr & Hv & _).
    pose proof (wf_in_range _ _ Hwf Hfr) as Hr.
    apply wf_set_desc_same_identity; simpl; try done.
    + apply wf_set_desc_same_identity; simpl; try done. congruence.
    + rewrite desc_set_desc_eq by done. simpl. congruence.
  - destruct (allocBuf s) as [[fr|e] s1] eqn:Ha;
      destruct (allocBuf_wf _ _ _ Hwf Ha) as (Hwf1 & Hn1 & Hk1 & Hr); simpl.
    2:{ by destruct e. }
    destruct Hr as [Hfr Hv].
    destruct onDisk as [pg|]; simpl.
    2:{ by apply wf_log_io. }
    set (s2 := set_page fr pg (log_io (EvReadPage f p) s1)).
    assert (Hwf2 : wf s2) by by apply wf_set_page, wf_log_io.
    assert (Hfr2 : fr < numBufs s2) by (simpl; lia).
    pose proof (wf_in_range _ _ Hwf2 Hfr2) as Hr.
    apply wf_set_desc_same_identity; simpl; try done.
    + apply (wf_install s2); try done. by apply Hk1.
    + rewrite desc_set_desc_eq by done. done.
Qed.

Lemma unPinPage_wf f p b s : wf s → wf (unPinPage f p b s).2.
Proof.
  intros Hwf. unfold unPinPage, try_catch_HashNotFound. munfold.
  destruct (hashTable s !! (f, p)) as [fr|] eqn:Hlk; simpl; [|done].
  destruct (wf_index _ Hwf _ _ _ Hlk) as (Hfr & Hv & _).
  pose proof (wf_in_range _ _ Hwf Hfr) as Hr.
  destruct (pinCnt (desc s fr) =? 0); simpl; [done|].
  apply wf_set_desc_same_identity; simpl; try done.
  - apply wf_set_desc_same_identity; simpl; try done. congruence.
  - rewrite desc_set_desc_eq by done. simpl. congruence.
Qed.

Lemma disposePage_wf f p s : wf s → wf (disposePage f p s).2.
Proof.
  intros Hwf. unfold disposePage, try_catch_HashNotFound. munfold.
  destruct (hashTable s !! (f, p)) as [fr|] eqn:Hlk; simpl.
  2:{ by apply wf_log_io. }
  rewrite Hlk. simpl.
  destruct (wf_index _ Hwf _ _ _ Hlk) as (Hfr & Hv & Hff & Hpp).
  apply wf_log_io. rewrite <- Hff, <- Hpp. by apply (wf_evict s fr).
Qed.

Lemma allocPage_wf f np content s :
  wf s → f ≠ NULL → hashTable s !! (f, np) = None →
  wf (allocPage f np (Some content) s).2.
Proof.
  intros Hwf Hf Hfresh. unfold allocPage. munfold. simpl.
  set (s0 := log_io (EvAllocatePage f np) s).
  assert (Hwf0 : wf s0) by by apply wf_log_io.
  destruct (allocBuf s0) as [[fr|e] s1] eqn:Ha;
    destruct (allocBuf_wf _ _ _ Hwf0 Ha) as (Hwf1 & Hn1 & Hk1 & Hr); simpl;
    [|done].
  destruct Hr as [Hfr Hv].
  set (s2 := set_page fr content (log_io (EvReadPage f np) s1)).
  assert (Hwf2 : wf s2) by by apply wf_set_page, wf_log_io.
  apply (wf_install s2);
    [done | simpl; by rewrite Hn1 | done | done | by apply Hk1].
Qed.

Lemma flushFile_body_eq f i s :
  (N.to_nat i < length (bufDescTable s))%nat →
  flushFile_body f i s =
    if file (desc s i) =? f then
      if 0 <? pinCnt (desc s i)
      then (Throw (PagePinnedException f (pageNo (desc s i)) i), s)
      else match hashTable s !! (f, pageNo (desc s i)) with
           | Some _ => (Ok tt, flush_frame f i s)
           | None =>
               (Throw HashNotFoundException,
                if dirty (desc s i)
                then set_desc i (with_dirty false (desc s i))
                       (log_io (EvWritePage f (page_at s i)) s)
                else s)
           end
    else (Ok tt, s).
Proof.
  intros Hr. unfold flushFile_body, flush_frame. munfold. simpl.
  destruct (file (desc s i) =? f) eqn:Hf; [|done].
  apply N.eqb_eq in Hf. rewrite Hf.
  destruct (0 <? pinCnt (desc s i)); simpl; [done|].
  destruct (dirty (desc s i)); simpl;
    destruct (hashTable s !! (f, pageNo (desc s i))); simpl; try done.
  f_equal. unfold set_desc, set_hashTable, desc; simpl. f_equal.
  rewrite list_insert_insert_eq, list_lookup_insert_eq by done. done.
Qed.

Lemma flush_frame_wf f i s :
  wf s → i < numBufs s → valid (desc s i) = true → file (desc s i) = f →
  wf (flush_frame f i s).
Proof.
  intros Hwf Hi Hv <-. unfold flush_frame.
  destruct (dirty (desc s i)).
  - by apply (wf_evict (log_io (EvWritePage (file (desc s i)) (page_at s i)) s));
      [apply wf_log_io|..].
  - by apply wf_evict.
Qed.

Lemma flushFile_body_wf f i s :
  wf s → i < numBufs s →
  wf (flushFile_body f i s).2 ∧ numBufs (flushFile_body f i s).2 = numBufs s.
Proof.
  intros Hwf Hi. rewrite flushFile_body_eq by by apply wf_in_range.
  destruct (file (desc s i) =? f) eqn:Hf; [|done].
  apply N.eqb_eq in Hf.
  destruct (0 <? pinCnt (desc s i)) eqn:Hp; simpl; [done|].
  destruct (valid (desc s i)) eqn:Hv.
  - destruct (wf_valid _ Hwf i Hi Hv) as [_ Hlk]. rewrite Hf in Hlk.
    rewrite Hlk. simpl. split; [by apply flush_frame_wf|].
    unfold flush_frame. by destruct (dirty (desc s i)).
  - destruct (wf_invalid _ Hwf i Hi Hv) as (_ & Hd & Hnull).
    rewrite Hd.
    destruct (hashTable s !! (f, pageNo (desc s i))) as [j|] eqn:Hlk; [|done].
    exfalso. destruct (wf_index _ Hwf _ _ _ Hlk) as (Hj & Hvj & Hfj & _).
    destruct (wf_valid _ Hwf j Hj Hvj) as [Hnn _]. congruence.
Qed.

Lemma flushFile_loop_wf f turns i s :
  wf s → N.of_nat turns + i ≤ numBufs s →
  wf (flushFile_loop f turns i s).2.
Proof.
  revert i s. induction turns as [|turns IH]; intros i s Hwf Hle; [done|].
  simpl. unfold mbind, M_bind.
  destruct (flushFile_body_wf f i s Hwf) as [Hwf1 Hn1]; [lia|].
  destruct (flushFile_body f i s) as [[[]|e] s1]; simpl in *; [|done].
  apply IH; [done|lia].
Qed.

Lemma flushFile_wf f s : wf s → wf (flushFile f s).2.
Proof. intros Hwf. unfold flushFile. apply flushFile_loop_wf; [done|lia]. Qed.

Lemma discard_state {A} (m : M A) s : (discard m s).2 = (m s).2.
Proof. unfold discard. by destruct (m s) as [[a|e] s']. Qed.

Lemma exec_wf o s :
  wf s → admissible o s → alloc_read_fails o = false → wf (exec o s).
Proof.
  intros Hwf Ha Hread. unfold exec.
  destruct o as [f p od|f p b|f np [c|]|f p|f]; simpl in *.
  - rewrite discard_state. by apply readPage_wf.
  - by apply unPinPage_wf.
  - rewrite discard_state. destruct Ha. by apply allocPage_wf.
  - done.
  - by apply disposePage_wf.
  - by apply flushFile_wf.
Qed.

Lemma reachable_reads_ok_wf bufs s :
  0 < bufs < 2 ^ 32 - 1 → reachable_reads_ok bufs s → wf s.
Proof.
  intros Hb Hr. induction Hr as [|s o _ IH Ha Hread].
  - by apply wf_BufMgr_new.
  - by apply exec_wf.
Qed.

(** The state invariant holds after every public operation but one: in every
    state a manager can reach from its construction while no [allocPage] had
    its read of the new page fail, an invalid frame has pin count 0 and is
    clean, every index entry names a valid frame that carries exactly that
    identity, every valid frame is the one the index gives for its identity,
    and no two valid frames carry the same identity.  Calls that throw the
    capacity, not-pinned, pinned-page or (in [readPage]) invalid-page
    exception are covered. *)
Theorem state_invariant_while_reads_succeed bufs s :
  0 < bufs < 2 ^ 32 - 1 → reachable_reads_ok bufs s → state_invariant s.
Proof.
  intros Hb Hr. apply wf_state_invariant. by apply (reachable_reads_ok_wf bufs).
Qed.

Lemma state_invariant_while_reads_succeed_witness :
  state_invariant
    (exec (OpUnPinPage 7 1 true) (exec (OpReadPage 7 1 (Some [1])) (BufMgr_new 2))).
Proof.
  apply (state_invariant_while_reads_succeed 2).
  - lia.
  - apply reachable_reads_ok_step; [|exact I|reflexivity].
    apply reachable_reads_ok_step; [apply reachable_reads_ok_new| |reflexivity].
    simpl. unfold NULL. lia.
Defined.

(** C3.  The state invariant does not hold after every public operation.
    [allocPage] inserts the index entry before it reads the new page, and
    nothing catches what the read throws: when the allocator has found a
    frame and the read then fails, the call throws the invalid-page exception
    and leaves an index entry for the new page that names an invalid frame,
    so the index references a frame whose descriptor disagrees with it. *)
Theorem allocPage_failed_read_breaks_invariant s f np fr s1 :
  wf s → allocBuf (log_io (EvAllocatePage f np) s) = (Ok fr, s1) →
  (allocPage f np None s).1 = Throw InvalidPageException ∧
  hashTable (allocPage f np None s).2 !! (f, np) = Some fr ∧
  valid (desc (allocPage f np None s).2 fr) = false ∧
  ¬ state_invariant (allocPage f np None s).2.
Proof.
  intros Hwf Ha.
  assert (Hwf0 : wf (log_io (EvAllocatePage f np) s)) by by apply wf_log_io.
  destruct (allocBuf_wf _ _ _ Hwf0 Ha) as (_ & _ & _ & _ & Hinv).
  assert (Hrun : allocPage f np None s =
            (Throw InvalidPageException,
             log_io (EvReadPage f np)
               (set_hashTable (<[(f, np) := fr]> (hashTable s1)) s1))).
  { unfold allocPage. munfold. simpl. by rewrite Ha. }
  rewrite Hrun. simpl.
  assert (Hlk : <[(f, np) := fr]> (hashTable s1) !! (f, np) = Some fr)
    by apply lookup_insert_eq.
  split_and!; try done.
  intros Hsi. destruct (inv_index_agrees _ Hsi f np fr Hlk) as (_ & Hv & _).
  change (valid (desc s1 fr) = true) in Hv. congruence.
Qed.

Lemma allocPage_failed_read_breaks_invariant_witness :
  reachable 2 (exec (OpAllocPage 7 1 None) (BufMgr_new 2)) ∧
  (allocPage 7 1 None (BufMgr_new 2)).1 = Throw InvalidPageException ∧
  hashTable (allocPage 7 1 None (BufMgr_new 2)).2 !! (7, 1) = Some 0 ∧
  valid (desc (allocPage 7 1 None (BufMgr_new 2)).2 0) = false ∧
  ¬ state_invariant (allocPage 7 1 None (BufMgr_new 2)).2.
Proof.
  split.
  - apply reachable_step; [apply reachable_new|].
    split; [unfold NULL; lia | apply lookup_empty].
  - apply (allocPage_failed_read_breaks_invariant (BufMgr_new 2) 7 1 0
             (allocBuf (log_io (EvAllocatePage 7 1) (BufMgr_new 2))).2).
    + apply wf_BufMgr_new. lia.
    + vm_compute; reflexivity.
Defined.

(** ** [unPinPage], case by case *)

Lemma set_desc_out_of_range s i d :
  (length (bufDescTable s) ≤ N.to_nat i)%nat → set_desc i d s = s.
Proof.
  intros Hge. destruct s as [n t pl h c l]. unfold set_desc; simpl in *.
  f_equal. by apply list_insert_ge.
Qed.

Lemma unPinPage_eq f p b s :
  unPinPage f p b s =
    match hashTable s !! (f, p) with
    | None => (Ok tt, s)
    | Some fr =>
        if pinCnt (desc s fr) =? 0
        then (Throw (PageNotPinnedException f p fr), s)
        else (Ok tt,
              let s1 := set_desc fr (with_dirty true (desc s fr)) s in
              set_desc fr (with_pinCnt (pinCnt (desc s1 fr) - 1) (desc s1 fr)) s1)
    end.
Proof.
  unfold unPinPage, try_catch_HashNotFound. munfold.
  destruct (hashTable s !! (f, p)) as [fr|]; simpl; [|done].
  by destruct (pinCnt (desc s fr) =? 0).
Qed.

(** A resident page that is pinned: the pin count goes down by one and the
    dirty flag is set, whatever the [dirty] argument says. *)
Lemma unPinPage_pinned f p b s fr :
  (N.to_nat fr < length (bufDescTable s))%nat →
  hashTable s !! (f, p) = Some fr → pinCnt (desc s fr) ≠ 0 →
  unPinPage f p b s =
    (Ok tt, set_desc fr (with_pinCnt (pinCnt (desc s fr) - 1)
                           (with_dirty true (desc s fr))) s).
Proof.
  intros Hr Hlk Hp. rewrite unPinPage_eq, Hlk.
  destruct (pinCnt (desc s fr) =? 0) eqn:E; [by apply N.eqb_eq in E|].
  simpl. rewrite set_desc_set_desc, desc_set_desc_eq by done. done.
Qed.

Lemma unPinPage_frame f p b s :
  let s' := (unPinPage f p b s).2 in
  numBufs s' = numBufs s ∧ bufPool s' = bufPool s ∧
  hashTable s' = hashTable s ∧ clockHand s' = clockHand s ∧
  ioLog s' = ioLog s ∧
  (∀ j, same_but_pin_dirty (desc s j) (desc s' j)) ∧
  (∀ j, hashTable s !! (f, p) ≠ Some j → desc s' j = desc s j).
Proof.
  simpl. rewrite unPinPage_eq.
  destruct (hashTable s !! (f, p)) as [fr|] eqn:Hlk; simpl.
  2:{ by split_and!. }
  destruct (pinCnt (desc s fr) =? 0) eqn:E; simpl.
  { by split_and!. }
  split_and!; try done.
  - intros j. destruct (decide (j = fr)) as [->|Hne].
    + destruct (decide (N.to_nat fr < length (bufDescTable s))%nat) as [Hr|Hr].
      * rewrite set_desc_set_desc, !desc_set_desc_eq by done. by split_and!.
      * rewrite (set_desc_out_of_range s) by lia.
        rewrite set_desc_out_of_range by lia. by split_and!.
    + rewrite !desc_set_desc_ne by done. by split_and!.
  - intros j Hj. rewrite !desc_set_desc_ne by congruence. done.
Qed.

(** C1.  What the code does on a resident page with pin count greater than
    zero: the pin count goes down by one and the dirty flag is set whatever
    the [dirty] argument is, so an unpin that passes [false] does not leave a
    clean frame's flag unchanged. *)
Theorem unPinPage_sets_dirty_whatever_the_argument s f p b fr :
  wf s → resident s f p fr → 0 < pinCnt (desc s fr) →
  (unPinPage f p b s).1 = Ok tt ∧
  pinCnt (desc (unPinPage f p b s).2 fr) = pinCnt (desc s fr) - 1 ∧
  dirty (desc (unPinPage f p b s).2 fr) = true.
Proof.
  intros Hwf Hres Hpin.
  destruct (wf_index _ Hwf _ _ _ Hres) as (Hfr & _).
  pose proof (wf_in_range _ _ Hwf Hfr) as Hr.
  rewrite (unPinPage_pinned f p b s fr) by (done || lia).
  simpl. rewrite desc_set_desc_eq by done. done.
Qed.

Lemma unPinPage_sets_dirty_whatever_the_argument_witness :
  dirty (desc (exec (OpReadPage 7 1 (Some [1])) (BufMgr_new 1)) 0) = false ∧
  (unPinPage 7 1 false (exec (OpReadPage 7 1 (Some [1])) (BufMgr_new 1))).1 = Ok tt ∧
  pinCnt (desc (unPinPage 7 1 false
                  (exec (OpReadPage 7 1 (Some [1])) (BufMgr_new 1))).2 0)
    = pinCnt (desc (exec (OpReadPage 7 1 (Some [1])) (BufMgr_new 1)) 0) - 1 ∧
  dirty (desc (unPinPage 7 1 false
                 (exec (OpReadPage 7 1 (Some [1])) (BufMgr_new 1))).2 0) = true.
Proof.
  split; [vm_compute; reflexivity|].
  apply (unPinPage_sets_dirty_whatever_the_argument _ 7 1 false 0).
  - apply exec_wf; [apply wf_BufMgr_new; lia | simpl; unfold NULL; lia | done].
  - vm_compute; reflexivity.
  - vm_compute; reflexivity.
Defined.

(** ** Which exceptions an operation can throw *)

Lemma allocBuf_body_raises s e :
  raises allocBuf_body s e → e = HashNotFoundException.
Proof.
  unfold raises, allocBuf_body, advanceClock. munfold. simpl.
  set (s1 := set_clockHand _ s). set (h := _ mod _).
  destruct (valid (desc s1 h)); simpl; [|done].
  destruct (refbit (desc s1 h)); simpl; [done|].
  destruct (0 <? pinCnt (desc s1 h)); simpl; [done|].
  destruct (dirty (desc s1 h)); simpl;
    destruct (hashTable s !! _); simpl; congruence.
Qed.

Lemma allocBuf_loop_raises turns s e :
  raises (allocBuf_loop turns) s e →
  e = BufferExceededException ∨ e = HashNotFoundException.
Proof.
  revert s. induction turns as [|turns IH]; intros s; unfold raises in *; simpl.
  - intros [= <-]. by left.
  - unfold mbind, M_bind.
    pose proof (allocBuf_body_raises s) as Hb. unfold raises in Hb.
    destruct (allocBuf_body s) as [[[fr|]|e'] s1]; simpl in *.
    + done.
    + apply IH.
    + intros [= <-]. right. by apply Hb.
Qed.

Lemma allocBuf_raises s e :
  raises allocBuf s e → is_PageNotPinned e = false.
Proof.
  unfold allocBuf. intros H.
  by destruct (allocBuf_loop_raises _ _ _ H) as [-> | ->].
Qed.

Lemma readPage_raises f p onDisk s e :
  raises (readPage f p onDisk) s e → is_PageNotPinned e = false.
Proof.
  unfold raises, readPage, try_catch_HashNotFound. munfold.
  destruct (hashTable s !! (f, p)) as [fr|]; simpl; [done|].
  pose proof (allocBuf_raises s) as Ha. unfold raises in Ha.
  destruct (allocBuf s) as [[fr|e'] s1]; simpl in *.
  - destruct onDisk; simpl; [done|]. by intros [= <-].
  - specialize (Ha e' eq_refl). destruct e'; simpl in *; by intros [= <-].
Qed.

Lemma allocPage_raises f np c s e :
  raises (allocPage f np c) s e → is_PageNotPinned e = false.
Proof.
  unfold raises, allocPage. munfold. simpl.
  set (s0 := log_io _ s).
  pose proof (allocBuf_raises s0) as Ha. unfold raises in Ha.
  destruct (allocBuf s0) as [[fr|e'] s1]; simpl in *.
  - destruct c; simpl; [done|]. by intros [= <-].
  - intros [= <-]. by apply Ha.
Qed.

Lemma disposePage_raises f p s e : ¬ raises (disposePage f p) s e.
Proof.
  unfold raises, disposePage, try_catch_HashNotFound. munfold.
  destruct (hashTable s !! (f, p)) as [fr|] eqn:E; simpl; [|done].
  rewrite E. done.
Qed.

Lemma flushFile_body_raises f i s e :
  raises (flushFile_body f i) s e → is_PageNotPinned e = false.
Proof.
  unfold raises, flushFile_body. munfold. simpl.
  destruct (file (desc s i) =? f); [|done].
  destruct (0 <? pinCnt (desc s i)); simpl; [by intros [= <-]|].
  destruct (dirty (desc s i)); simpl;
    destruct (hashTable s !! _); simpl; try done; by intros [= <-].
Qed.

Lemma flushFile_loop_raises f turns i s e :
  raises (flushFile_loop f turns i) s e → is_PageNotPinned e = false.
Proof.
  revert i s. induction turns as [|turns IH]; intros i s; unfold raises in *;
    simpl; [done|].
  unfold mbind, M_bind.
  pose proof (flushFile_body_raises f i s) as Hb. unfold raises in Hb.
  destruct (flushFile_body f i s) as [[[]|e'] s1]; simpl in *.
  - apply IH.
  - intros [= <-]. by apply Hb.
Qed.

Lemma discard_raises {A} (m : M A) s e : raises (discard m) s e → raises m s e.
Proof. unfold raises, discard. destruct (m s) as [[a|e'] s']; simpl; congruence. Qed.

(** C6.  [unPinPage] on a page that is not resident returns without error
    and leaves the state as it was; on a resident page whose pin count is
    zero it throws the not-pinned exception; and that exception is thrown in
    exactly this case: [unPinPage] throws nothing else, and no other public
    operation throws it. *)
Theorem unPinPage_not_pinned_exactly f p b s :
  (hashTable s !! (f, p) = None → unPinPage f p b s = (Ok tt, s)) ∧
  (∀ fr, resident s f p fr → pinCnt (desc s fr) = 0 →
     unPinPage f p b s = (Throw (PageNotPinnedException f p fr), s)) ∧
  (∀ e, raises (unPinPage f p b) s e ↔
     ∃ fr, resident s f p fr ∧ pinCnt (desc s fr) = 0 ∧
           e = PageNotPinnedException f p fr) ∧
  (∀ o e, raises (run_op o) s e → is_PageNotPinned e = true →
     ∃ g q d, o = OpUnPinPage g q d).
Proof.
  split_and!.
  - intros Hmiss. by rewrite unPinPage_eq, Hmiss.
  - intros fr Hres Hzero. rewrite unPinPage_eq, Hres, Hzero. done.
  - intros e. unfold raises. rewrite unPinPage_eq. split.
    + destruct (hashTable s !! (f, p)) as [fr|] eqn:Hlk; [|done].
      destruct (pinCnt (desc s fr) =? 0) eqn:Hz; [|done].
      intros [= <-]. exists fr. apply N.eqb_eq in Hz. done.
    + intros (fr & Hres & Hzero & ->). unfold resident in Hres.
      by rewrite Hres, Hzero.
  - intros o e Hraise Hkind. destruct o as [g q od|g q d|g np c|g q|g]; simpl in *.
    + apply discard_raises, readPage_raises in Hraise. congruence.
    + by exists g, q, d.
    + apply discard_raises, allocPage_raises in Hraise. congruence.
    + by apply disposePage_raises in Hraise.
    + apply flushFile_loop_raises in Hraise. congruence.
Qed.

(** ** [readPage], hit and miss *)

Lemma readPage_hit f p onDisk s fr :
  (N.to_nat fr < length (bufDescTable s))%nat →
  hashTable s !! (f, p) = Some fr →
  readPage f p onDisk s =
    (Ok fr, set_desc fr (with_refbit true
                           (with_pinCnt (pinCnt (desc s fr) + 1) (desc s fr))) s).
Proof.
  intros Hr Hlk. unfold readPage, try_catch_HashNotFound. munfold.
  rewrite Hlk. simpl.
  rewrite set_desc_set_desc, desc_set_desc_eq by done. done.
Qed.

Lemma readPage_miss f p onDisk s :
  hashTable s !! (f, p) = None →
  readPage f p onDisk s =
    match allocBuf s with
    | (Throw e, s1) => (Throw e, s1)
    | (Ok fr, s1) =>
        match onDisk with
        | None => (Throw InvalidPageException, log_io (EvReadPage f p) s1)
        | Some pg =>
            let s2 := set_page fr pg (log_io (EvReadPage f p) s1) in
            let s3 := set_desc fr (BufDesc_Set f p (desc s2 fr))
                        (set_hashTable (<[(f, p) := fr]> (hashTable s2)) s2) in
            (Ok fr, set_desc fr (with_refbit true (desc s3 fr)) s3)
        end
    end.
Proof.
  intros Hlk. unfold readPage, try_catch_HashNotFound. munfold.
  rewrite Hlk. simpl.
  destruct (allocBuf s) as [[fr|e] s1]; simpl.
  - by destruct onDisk.
  - by destruct e.
Qed.

(** After a fetch that missed and succeeded, the page is in the index at the
    returned frame with pin count 1. *)
Lemma readPage_miss_pins_once f p onDisk s fr s1 :
  wf s → hashTable s !! (f, p) = None →
  readPage f p onDisk s = (Ok fr, s1) →
  hashTable s1 !! (f, p) = Some fr ∧ pinCnt (desc s1 fr) = 1 ∧
  fr < numBufs s ∧ numBufs s1 = numBufs s.
Proof.
  intros Hwf Hlk. rewrite readPage_miss by done.
  destruct (allocBuf s) as [[fr'|e] s0] eqn:Ha; [|done].
  destruct (allocBuf_wf _ _ _ Hwf Ha) as (Hwf0 & Hn0 & _ & Hfr & _).
  destruct onDisk as [pg|]; [|done].
  simpl. intros [= -> <-].
  assert (Hr : (N.to_nat fr < length (bufDescTable s0))%nat)
    by (apply wf_in_range; [done | by rewrite Hn0]).
  split_and!; try done.
  - simpl. by rewrite lookup_insert_eq.
  - rewrite set_desc_set_desc, desc_set_desc_eq by done.
    simpl. by rewrite desc_set_desc_eq.
Qed.

(** C9.  [readPage] on an index hit adds one to the hit frame's pin count,
    sets its reference bit and returns that frame's buffer; the clock hand,
    the index, the buffers, every other descriptor and the file are untouched
    (no allocator run, no read, no write).  In particular a fetch that missed
    and succeeded, followed by a fetch of the same page, returns the same
    frame both times and leaves its pin count at 2. *)
Theorem readPage_hit_pins_frame_without_io :
  (∀ s f p fr onDisk, wf s → resident s f p fr →
     (readPage f p onDisk s).1 = Ok fr ∧
     pinCnt (desc (readPage f p onDisk s).2 fr) = pinCnt (desc s fr) + 1 ∧
     refbit (desc (readPage f p onDisk s).2 fr) = true ∧
     same_but_pin_dirty (with_refbit true (desc s fr))
                        (desc (readPage f p onDisk s).2 fr) ∧
     dirty (desc (readPage f p onDisk s).2 fr) = dirty (desc s fr) ∧
     (∀ j, j ≠ fr → desc (readPage f p onDisk s).2 j = desc s j) ∧
     numBufs (readPage f p onDisk s).2 = numBufs s ∧
     clockHand (readPage f p onDisk s).2 = clockHand s ∧
     hashTable (readPage f p onDisk s).2 = hashTable s ∧
     bufPool (readPage f p onDisk s).2 = bufPool s ∧
     ioLog (readPage f p onDisk s).2 = ioLog s) ∧
  (∀ s f p fr onDisk onDisk' s1, wf s → f ≠ NULL →
     hashTable s !! (f, p) = None →
     readPage f p onDisk s = (Ok fr, s1) →
     (readPage f p onDisk' s1).1 = Ok fr ∧
     pinCnt (desc (readPage f p onDisk' s1).2 fr) = 2).
Proof.
  assert (Hhit : ∀ s f p fr onDisk, wf s → resident s f p fr →
    readPage f p onDisk s =
      (Ok fr, set_desc fr (with_refbit true
                (with_pinCnt (pinCnt (desc s fr) + 1) (desc s fr))) s) ∧
    (N.to_nat fr < length (bufDescTable s))%nat).
  { intros s f p fr onDisk Hwf Hres.
    destruct (wf_index _ Hwf _ _ _ Hres) as (Hfr & _).
    pose proof (wf_in_range _ _ Hwf Hfr) as Hr.
    split; [by apply readPage_hit | done]. }
  split.
  - intros s f p fr onDisk Hwf Hres.
    destruct (Hhit s f p fr onDisk Hwf Hres) as [-> Hr]. simpl.
    rewrite desc_set_desc_eq by done. simpl.
    split_and!; try done.
    intros j Hj. by rewrite desc_set_desc_ne.
  - intros s f p fr onDisk onDisk' s1 Hwf Hf Hmiss Hfirst.
    destruct (readPage_miss_pins_once _ _ _ _ _ _ Hwf Hmiss Hfirst)
      as (Hres1 & Hpin1 & _).
    assert (Hwf1 : wf s1).
    { replace s1 with (readPage f p onDisk s).2 by by rewrite Hfirst.
      by apply readPage_wf. }
    destruct (Hhit s1 f p fr onDisk' Hwf1 Hres1) as [-> Hr]. simpl.
    rewrite desc_set_desc_eq by done. simpl. rewrite Hpin1. done.
Qed.

Lemma readPage_hit_pins_frame_without_io_witness :
  (readPage 7 1 None (exec (OpReadPage 7 1 (Some [1])) (BufMgr_new 2))).1 = Ok 0 ∧
  pinCnt (desc (readPage 7 1 None
                  (exec (OpReadPage 7 1 (Some [1])) (BufMgr_new 2))).2 0) = 2.
Proof.
  apply (proj2 readPage_hit_pins_frame_without_io
           (BufMgr_new 2) 7 1 0 (Some [1]) None).
  - apply wf_BufMgr_new. lia.
  - unfold NULL. lia.
  - vm_compute; reflexivity.
  - vm_compute; reflexivity.
Defined.

(** C10.  [unPinPage] never evicts.  Whatever the call does, the index,
    the clock hand, the buffer pool and the file are untouched, every
    descriptor keeps its frame number, identity, validity and reference bit
    (only pin count and dirty flag can differ), and descriptors other than the
    hit frame's are unchanged; so every resident page stays resident, and an
    unpin that brings the pin count to zero leaves the frame valid and
    indexed.  A page leaves the pool only in [readPage] on a miss or in
    [allocPage] (the allocator), in [flushFile] or in [disposePage]. *)
Theorem unPinPage_never_evicts f p b s :
  numBufs (unPinPage f p b s).2 = numBufs s ∧
  bufPool (unPinPage f p b s).2 = bufPool s ∧
  hashTable (unPinPage f p b s).2 = hashTable s ∧
  clockHand (unPinPage f p b s).2 = clockHand s ∧
  ioLog (unPinPage f p b s).2 = ioLog s ∧
  (∀ j, same_but_pin_dirty (desc s j) (desc (unPinPage f p b s).2 j)) ∧
  (∀ j, ¬ resident s f p j → desc (unPinPage f p b s).2 j = desc s j) ∧
  (∀ g q j, resident s g q j → resident (unPinPage f p b s).2 g q j) ∧
  (∀ o g q j, wf s → resident s g q j → ¬ resident (exec o s) g q j →
     match o with
     | OpUnPinPage _ _ _ => False
     | OpReadPage f' p' _ => hashTable s !! (f', p') = None
     | OpAllocPage _ _ _ | OpDisposePage _ _ | OpFlushFile _ => True
     end) ∧
  (∀ fr, wf s → resident s f p fr → pinCnt (desc s fr) = 1 →
     pinCnt (desc (unPinPage f p b s).2 fr) = 0 ∧
     valid (desc (unPinPage f p b s).2 fr) = true ∧
     file (desc (unPinPage f p b s).2 fr) = f ∧
     pageNo (desc (unPinPage f p b s).2 fr) = p ∧
     resident (unPinPage f p b s).2 f p fr).
Proof.
  destruct (unPinPage_frame f p b s) as (Hn & Hpool & Hh & Hc & Hio & Hsame & Hoth).
  split_and!; try done.
  - intros g q j. unfold resident. by rewrite Hh.
  - intros o g q j Hwf Hres Hgone.
    destruct o as [f' p' od|f' p' b'|f' np c|f' p'|f']; try exact I.
    + destruct (hashTable s !! (f', p')) as [fr|] eqn:Hlk; [|done].
      exfalso. apply Hgone. unfold exec. simpl. rewrite discard_state.
      destruct (wf_index _ Hwf _ _ _ Hlk) as (Hfr & _).
      rewrite (readPage_hit f' p' od s fr) by (done || by apply wf_in_range).
      exact Hres.
    + apply Hgone. unfold exec, resident. simpl.
      by destruct (unPinPage_frame f' p' b' s) as (_ & _ & -> & _).
  - intros fr Hwf Hres Hone.
    destruct (wf_index _ Hwf _ _ _ Hres) as (Hfr & Hv & Hf & Hp).
    destruct (Hsame fr) as (_ & Hf' & Hp' & Hv' & _).
    split_and!; [|congruence..|unfold resident; by rewrite Hh].
    pose proof (wf_in_range _ _ Hwf Hfr) as Hr.
    rewrite (unPinPage_pinned f p b s fr) by (done || lia).
    simpl. rewrite desc_set_desc_eq by done. simpl. lia.
Qed.

Lemma unPinPage_never_evicts_witness :
  pinCnt (desc (unPinPage 7 1 false
                  (exec (OpReadPage 7 1 (Some [1])) (BufMgr_new 1))).2 0) = 0 ∧
  valid (desc (unPinPage 7 1 false
                 (exec (OpReadPage 7 1 (Some [1])) (BufMgr_new 1))).2 0) = true ∧
  file (desc (unPinPage 7 1 false
                (exec (OpReadPage 7 1 (Some [1])) (BufMgr_new 1))).2 0) = 7 ∧
  pageNo (desc (unPinPage 7 1 false
                  (exec (OpReadPage 7 1 (Some [1])) (BufMgr_new 1))).2 0) = 1 ∧
  resident (unPinPage 7 1 false
              (exec (OpReadPage 7 1 (Some [1])) (BufMgr_new 1))).2 7 1 0.
Proof.
  apply (unPinPage_never_evicts 7 1 false
           (exec (OpReadPage 7 1 (Some [1])) (BufMgr_new 1))).
  - apply exec_wf; [apply wf_BufMgr_new; lia | simpl; unfold NULL; lia | done].
  - vm_compute; reflexivity.
  - vm_compute; reflexivity.
Defined.

(** ** [disposePage] *)

Lemma disposePage_eq f p s :
  disposePage f p s =
    match hashTable s !! (f, p) with
    | Some fr =>
        (Ok tt, log_io (EvDeletePage f p)
                  (set_hashTable (delete (f, p) (hashTable s))
                     (set_desc fr (BufDesc_Clear (desc s fr)) s)))
    | None => (Ok tt, log_io (EvDeletePage f p) s)
    end.
Proof.
  unfold disposePage, try_catch_HashNotFound. munfold.
  destruct (hashTable s !! (f, p)) as [fr|] eqn:Hlk; simpl; [|done].
  by rewrite Hlk.
Qed.

(** C5.  [disposePage] on a resident page, whatever its pin count and
    whether or not it is dirty, clears the frame's descriptor, removes the
    index entry and makes exactly one call on the file, the deletion of the
    page (no write-back); nothing else in the pool changes.  On a page that
    is not resident it goes straight to that deletion and returns without
    error. *)
Theorem disposePage_clears_without_writeback f p s :
  wf s →
  (∀ fr, resident s f p fr →
     (disposePage f p s).1 = Ok tt ∧
     desc (disposePage f p s).2 fr = BufDesc_Clear (desc s fr) ∧
     hashTable (disposePage f p s).2 = delete (f, p) (hashTable s) ∧
     hashTable (disposePage f p s).2 !! (f, p) = None ∧
     ioLog (disposePage f p s).2 = EvDeletePage f p :: ioLog s ∧
     (∀ j, j ≠ fr → desc (disposePage f p s).2 j = desc s j) ∧
     bufPool (disposePage f p s).2 = bufPool s ∧
     clockHand (disposePage f p s).2 = clockHand s) ∧
  (hashTable s !! (f, p) = None →
     disposePage f p s = (Ok tt, log_io (EvDeletePage f p) s)).
Proof.
  intros Hwf. split.
  - intros fr Hres.
    destruct (wf_index _ Hwf _ _ _ Hres) as (Hfr & _).
    pose proof (wf_in_range _ _ Hwf Hfr) as Hr.
    rewrite disposePage_eq. unfold resident in Hres. rewrite Hres. simpl.
    split_and!; try done.
    + change (desc (set_desc fr (BufDesc_Clear (desc s fr)) s) fr
              = BufDesc_Clear (desc s fr)).
      by apply desc_set_desc_eq.
    + by rewrite lookup_delete_eq.
    + intros j Hj.
      change (desc (set_desc fr (BufDesc_Clear (desc s fr)) s) j = desc s j).
      by apply desc_set_desc_ne.
  - intros Hmiss. by rewrite disposePage_eq, Hmiss.
Qed.

Lemma disposePage_clears_without_writeback_witness :
  pinCnt (desc (run_ops [OpReadPage 7 1 (Some [1]); OpUnPinPage 7 1 true;
                         OpReadPage 7 1 None] (BufMgr_new 2)) 0) = 1 ∧
  dirty (desc (run_ops [OpReadPage 7 1 (Some [1]); OpUnPinPage 7 1 true;
                        OpReadPage 7 1 None] (BufMgr_new 2)) 0) = true ∧
  (disposePage 7 1
     (run_ops [OpReadPage 7 1 (Some [1]); OpUnPinPage 7 1 true;
               OpReadPage 7 1 None] (BufMgr_new 2))).1 = Ok tt ∧
  valid (desc (disposePage 7 1
     (run_ops [OpReadPage 7 1 (Some [1]); OpUnPinPage 7 1 true;
               OpReadPage 7 1 None] (BufMgr_new 2))).2 0) = false ∧
  ioLog (disposePage 7 1
     (run_ops [OpReadPage 7 1 (Some [1]); OpUnPinPage 7 1 true;
               OpReadPage 7 1 None] (BufMgr_new 2))).2
    = [EvDeletePage 7 1; EvReadPage 7 1].
Proof.
  set (s := run_ops _ _).
  assert (Hwf : wf s).
  { repeat (apply exec_wf; [|by (exact I || (unfold admissible, NULL; lia))|done]).
    apply wf_BufMgr_new. lia. }
  assert (Hres : resident s 7 1 0) by (vm_compute; reflexivity).
  destruct (proj1 (disposePage_clears_without_writeback 7 1 s Hwf) 0 Hres)
    as (Hok & Hd & _ & _ & Hio & _).
  split_and!.
  - vm_compute; reflexivity.
  - vm_compute; reflexivity.
  - exact Hok.
  - rewrite Hd. reflexivity.
  - rewrite Hio. vm_compute; reflexivity.
Defined.

(** ** [flushFile], frame by frame *)

Lemma flush_frame_fields f i s :
  numBufs (flush_frame f i s) = numBufs s ∧
  bufPool (flush_frame f i s) = bufPool s ∧
  clockHand (flush_frame f i s) = clockHand s ∧
  hashTable (flush_frame f i s) = delete (f, pageNo (desc s i)) (hashTable s) ∧
  ioLog (flush_frame f i s) =
    (if dirty (desc s i) then [EvWritePage f (page_at s i)] else []) ++ ioLog s.
Proof. unfold flush_frame. by destruct (dirty (desc s i)). Qed.

Lemma flush_frame_desc_ne f i s j :
  j ≠ i → desc (flush_frame f i s) j = desc s j.
Proof.
  intros Hne. unfold flush_frame. rewrite desc_set_desc_ne by done.
  by destruct (dirty (desc s i)).
Qed.

Lemma flush_frame_desc_eq f i s :
  (N.to_nat i < length (bufDescTable s))%nat →
  desc (flush_frame f i s) i = BufDesc_Clear (desc s i).
Proof.
  intros Hr. unfold flush_frame. apply desc_set_desc_eq.
  by destruct (dirty (desc s i)).
Qed.

(** The turn of the loop on a frame of a well-formed pool. *)
Lemma flushFile_body_cases f i s :
  wf s → f ≠ NULL → i < numBufs s →
  flushFile_body f i s =
    if decide (file (desc s i) = f) then
      if 0 <? pinCnt (desc s i)
      then (Throw (PagePinnedException f (pageNo (desc s i)) i), s)
      else (Ok tt, flush_frame f i s)
    else (Ok tt, s).
Proof.
  intros Hwf Hf Hi. rewrite flushFile_body_eq by by apply wf_in_range.
  destruct (decide (file (desc s i) = f)) as [He|Hne].
  - rewrite (proj2 (N.eqb_eq _ _) He).
    destruct (0 <? pinCnt (desc s i)); [done|].
    destruct (valid (desc s i)) eqn:Hv.
    + destruct (wf_valid _ Hwf i Hi Hv) as [_ Hlk]. rewrite He in Hlk.
      by rewrite Hlk.
    + destruct (wf_invalid _ Hwf i Hi Hv) as (_ & _ & Hnull). congruence.
  - by rewrite (proj2 (N.eqb_neq _ _) Hne).
Qed.

Lemma frame_flushed_mono f s s1 s' new1 w j i :
  j ≠ i → desc s1 j = desc s j → page_at s1 j = page_at s j →
  frame_flushed f s1 s' new1 j → frame_flushed f s s' (new1 ++ w) j.
Proof.
  intros Hne Hd Hp [Hsame Hother]. rewrite Hd, Hp in *. split; [|done].
  intros Hf. destruct (Hsame Hf) as (? & ? & ? & Hw). split_and!; try done.
  intros Hdirty. apply elem_of_app. left. by apply Hw.
Qed.

Lemma flushFile_loop_effect f turns i s r s' :
  wf s → f ≠ NULL → N.of_nat turns + i = numBufs s →
  flushFile_loop f turns i s = (r, s') →
  wf s' ∧ numBufs s' = numBufs s ∧ bufPool s' = bufPool s ∧
  clockHand s' = clockHand s ∧
  (∀ k v, hashTable s' !! k = Some v → hashTable s !! k = Some v) ∧
  (∀ j, j < i → desc s' j = desc s j) ∧
  ∃ new, ioLog s' = new ++ ioLog s ∧
    (∀ ev, ev ∈ new → ∃ j, ev = EvWritePage f (page_at s j)) ∧
    match r with
    | Ok _ => ∀ j, i ≤ j < numBufs s → frame_flushed f s s' new j
    | Throw e =>
        ∃ k, i ≤ k < numBufs s ∧
          e = PagePinnedException f (pageNo (desc s k)) k ∧
          file (desc s k) = f ∧ 0 < pinCnt (desc s k) ∧
          (∀ j, i ≤ j < k → frame_flushed f s s' new j) ∧
          (∀ j, k ≤ j → desc s' j = desc s j)
    end.
Proof.
  revert i s r s'. induction turns as [|turns IH]; intros i s r s' Hwf Hf Hn.
  - simpl. intros [= <- <-]. split_and!; try done.
    exists []. split_and!; try done.
    + intros ev Hev. by apply elem_of_nil in Hev.
    + intros j Hj. lia.
  - assert (Hi : i < numBufs s) by lia.
    pose proof (wf_in_range _ _ Hwf Hi) as Hr.
    simpl. unfold mbind, M_bind.
    rewrite flushFile_body_cases by done.
    destruct (decide (file (desc s i) = f)) as [He|Hne].
    2:{ (* a frame of another file *)
      intros Hl.
      destruct (IH (i + 1) s r s' Hwf Hf ltac:(lia) Hl)
        as (Hwf' & Hn' & Hpool & Hc & Hsub & Hlow & new & Hio & Hev & Hr').
      split_and!; try done.
      { intros j Hj. apply Hlow. lia. }
      exists new. split_and!; try done.
      assert (Hfi : frame_flushed f s s' new i).
      { split; [done|]. intros _. apply Hlow. lia. }
      destruct r as [[]|e].
      - intros j Hj. destruct (decide (j = i)) as [->|Hji]; [done|].
        apply Hr'. lia.
      - destruct Hr' as (k & Hk & -> & Hfk & Hpk & Hbefore & Hafter).
        exists k. split_and!; try done; try lia.
        intros j Hj. destruct (decide (j = i)) as [->|Hji]; [done|].
        apply Hbefore. lia. }
    destruct (0 <? pinCnt (desc s i)) eqn:Hp.
    { (* a pinned frame of the file: the scan stops here *)
      intros [= <- <-]. split_and!; try done.
      exists []. split_and!; try done.
      - intros ev Hev. by apply elem_of_nil in Hev.
      - exists i. apply N.ltb_lt in Hp.
        split_and!; try done; try lia; intros j Hj; lia. }
    (* an unpinned frame of the file *)
    apply N.ltb_ge in Hp.
    assert (Hv : valid (desc s i) = true).
    { destruct (valid (desc s i)) eqn:Hv; [done|].
      destruct (wf_invalid _ Hwf i Hi Hv) as (_ & _ & Hnull). congruence. }
    destruct (flush_frame_fields f i s) as (Hn1 & Hpool1 & Hc1 & Hh1 & Hio1).
    set (s1 := flush_frame f i s) in *.
    assert (Hwf1 : wf s1) by by apply flush_frame_wf.
    intros Hl.
    destruct (IH (i + 1) s1 r s' Hwf1 Hf ltac:(lia) Hl)
      as (Hwf' & Hn' & Hpool & Hc & Hsub & Hlow & new & Hio & Hev & Hr').
    assert (Hd1 : ∀ j, j ≠ i → desc s1 j = desc s j)
      by (intros; by apply flush_frame_desc_ne).
    assert (Hp1 : ∀ j, page_at s1 j = page_at s j)
      by (intros; unfold page_at; by rewrite Hpool1).
    assert (Hsub1 : ∀ k v, hashTable s1 !! k = Some v → hashTable s !! k = Some v).
    { intros k v. rewrite Hh1. intros Hk.
      apply lookup_delete_Some in Hk. by destruct Hk. }
    set (w := if dirty (desc s i) then [EvWritePage f (page_at s i)] else []) in *.
    assert (Hfi : frame_flushed f s s' (new ++ w) i).
    { split; [|done]. intros _. split_and!.
      - lia.
      - rewrite Hlow by lia. by apply flush_frame_desc_eq.
      - destruct (hashTable s' !! (f, pageNo (desc s i))) as [v|] eqn:Hk; [|done].
        apply Hsub in Hk. rewrite Hh1, lookup_delete_eq in Hk. done.
      - intros Hdirty. apply elem_of_app. right. unfold w. rewrite Hdirty.
        apply list_elem_of_singleton. done. }
    split_and!; try congruence.
    { intros k v Hk. by apply Hsub1, Hsub. }
    { intros j Hj. rewrite Hlow by lia. apply Hd1. lia. }
    exists (new ++ w). split_and!.
    { rewrite Hio, Hio1. by rewrite app_assoc. }
    { intros ev Hin. apply elem_of_app in Hin. destruct Hin as [Hin|Hin].
      - destruct (Hev ev Hin) as [j ->]. exists j. by rewrite Hp1.
      - unfold w in Hin. destruct (dirty (desc s i)).
        + apply list_elem_of_singleton in Hin. by exists i.
        + by apply elem_of_nil in Hin. }
    destruct r as [[]|e].
    + intros j Hj. destruct (decide (j = i)) as [->|Hji]; [done|].
      apply (frame_flushed_mono f s s1 s' new w j i); try done.
      * by apply Hd1.
      * apply Hr'. lia.
    + destruct Hr' as (k & Hk & -> & Hfk & Hpk & Hbefore & Hafter).
      assert (Hki : k ≠ i) by lia.
      exists k. rewrite Hd1 in * by done. split_and!; try done; try lia.
      * intros j Hj. destruct (decide (j = i)) as [->|Hji]; [done|].
        apply (frame_flushed_mono f s s1 s' new w j i); try done.
        -- by apply Hd1.
        -- apply Hbefore. lia.
      * intros j Hj. rewrite Hafter by done. apply Hd1. lia.
Qed.

Lemma flushFile_effect f s r s' :
  wf s → f ≠ NULL → flushFile f s = (r, s') →
  wf s' ∧ numBufs s' = numBufs s ∧ bufPool s' = bufPool s ∧
  clockHand s' = clockHand s ∧
  ∃ new, ioLog s' = new ++ ioLog s ∧
    (∀ ev, ev ∈ new → ∃ j, ev = EvWritePage f (page_at s j)) ∧
    match r with
    | Ok _ => ∀ j, j < numBufs s → frame_flushed f s s' new j
    | Throw e =>
        ∃ k, k < numBufs s ∧
          e = PagePinnedException f (pageNo (desc s k)) k ∧
          file (desc s k) = f ∧ 0 < pinCnt (desc s k) ∧
          (∀ j, j < k → frame_flushed f s s' new j) ∧
          (∀ j, k ≤ j → desc s' j = desc s j)
    end.
Proof.
  intros Hwf Hf Hfl. unfold flushFile in Hfl.
  destruct (flushFile_loop_effect f (N.to_nat (numBufs s)) 0 s r s' Hwf Hf
              ltac:(lia) Hfl)
    as (Hwf' & Hn' & Hpool & Hc & _ & _ & new & Hio & Hev & Hr).
  split_and!; try done. exists new. split_and!; try done.
  destruct r as [[]|e].
  - intros j Hj. apply Hr. lia.
  - destruct Hr as (k & Hk & -> & Hfk & Hpk & Hbefore & Hafter).
    exists k. split_and!; try done; try lia.
    intros j Hj. apply Hbefore. lia.
Qed.

(** C4.  [flushFile] scans the frames in increasing index order.  At the
    first frame of the file whose pin count is greater than zero it throws
    the pinned-page exception for that frame; the frames of the file before
    it stay flushed (written back if dirty, out of the index, cleared), and
    the frames from it onwards keep their descriptor, buffer and index
    entry. *)
Theorem flushFile_stops_at_first_pinned_frame f s k :
  wf s → k < numBufs s →
  file (desc s k) = f → 0 < pinCnt (desc s k) →
  (∀ j, j < k → file (desc s j) = f → pinCnt (desc s j) = 0) →
  (flushFile f s).1 = Throw (PagePinnedException f (pageNo (desc s k)) k) ∧
  (∃ new, ioLog (flushFile f s).2 = new ++ ioLog s ∧
     ∀ j, j < k → frame_flushed f s (flushFile f s).2 new j) ∧
  (∀ j, k ≤ j →
     desc (flushFile f s).2 j = desc s j ∧
     page_at (flushFile f s).2 j = page_at s j) ∧
  (∀ j, k ≤ j → j < numBufs s → valid (desc s j) = true →
     resident (flushFile f s).2 (file (desc s j)) (pageNo (desc s j)) j).
Proof.
  intros Hwf Hk Hfk Hpk Hfirst.
  assert (Hf : f ≠ NULL).
  { destruct (valid (desc s k)) eqn:Hv.
    - destruct (wf_valid _ Hwf k Hk Hv) as [Hnn _]. congruence.
    - destruct (wf_invalid _ Hwf k Hk Hv) as (Hz & _). lia. }
  destruct (flushFile f s) as [r s'] eqn:Hfl. simpl.
  destruct (flushFile_effect f s r s' Hwf Hf Hfl)
    as (Hwf' & Hn' & Hpool & Hc & new & Hio & Hev & Hr).
  destruct r as [[]|e].
  { destruct (Hr k Hk) as [Hsame _]. destruct (Hsame Hfk) as (Hz & _). lia. }
  destruct Hr as (k' & Hk' & -> & Hfk' & Hpk' & Hbefore & Hafter).
  assert (k' = k) as ->.
  { destruct (N.lt_trichotomy k' k) as [Hlt|[Heq|Hgt]]; [|done|].
    - specialize (Hfirst k' Hlt Hfk'). lia.
    - destruct (Hbefore k Hgt) as [Hsame _].
      destruct (Hsame Hfk) as (Hz & _). lia. }
  split_and!; try done.
  - by exists new.
  - intros j Hj. split; [by apply Hafter|]. unfold page_at. by rewrite Hpool.
  - intros j Hj Hjn Hv. unfold resident.
    rewrite <- (Hafter j Hj) in *.
    rewrite <- Hn' in Hjn. by destruct (wf_valid _ Hwf' j Hjn Hv).
Qed.

Lemma flushFile_stops_at_first_pinned_frame_witness :
  (flushFile 7 (run_ops [OpReadPage 7 1 (Some [1]); OpUnPinPage 7 1 true;
                         OpReadPage 7 2 (Some [2]);
                         OpReadPage 7 3 (Some [3]); OpUnPinPage 7 3 true]
                  (BufMgr_new 3))).1
    = Throw (PagePinnedException 7 2 1) ∧
  valid (desc (flushFile 7 (run_ops [OpReadPage 7 1 (Some [1]); OpUnPinPage 7 1 true;
                         OpReadPage 7 2 (Some [2]);
                         OpReadPage 7 3 (Some [3]); OpUnPinPage 7 3 true]
                  (BufMgr_new 3))).2 0) = false ∧
  desc (flushFile 7 (run_ops [OpReadPage 7 1 (Some [1]); OpUnPinPage 7 1 true;
                         OpReadPage 7 2 (Some [2]);
                         OpReadPage 7 3 (Some [3]); OpUnPinPage 7 3 true]
                  (BufMgr_new 3))).2 2
    = desc (run_ops [OpReadPage 7 1 (Some [1]); OpUnPinPage 7 1 true;
                         OpReadPage 7 2 (Some [2]);
                         OpReadPage 7 3 (Some [3]); OpUnPinPage 7 3 true]
                  (BufMgr_new 3)) 2.
Proof.
  set (s := run_ops _ _).
  assert (Hwf : wf s).
  { repeat (apply exec_wf; [|by (exact I || (unfold admissible, NULL; lia))|done]).
    apply wf_BufMgr_new. lia. }
  assert (Hfirst : ∀ j, j < 1 → file (desc s j) = 7 → pinCnt (desc s j) = 0).
  { intros j Hj _. assert (j = 0) as -> by lia. vm_compute; reflexivity. }
  destruct (flushFile_stops_at_first_pinned_frame 7 s 1 Hwf
              ltac:(vm_compute; reflexivity) ltac:(vm_compute; reflexivity)
              ltac:(vm_compute; reflexivity) Hfirst)
    as (Hthrow & (new & _ & Hflushed) & Hkeep & _).
  split_and!.
  - exact Hthrow.
  - destruct (Hflushed 0 ltac:(lia)) as [Hsame _].
    destruct (Hsame ltac:(vm_compute; reflexivity)) as (_ & -> & _).
    reflexivity.
  - apply Hkeep. lia.
Defined.



(** ** The clock hand *)

Lemma new_hand_advance bufs :
  0 < bufs < 2 ^ 32 - 1 →
  wrap32 (clockHand (BufMgr_new bufs) + 1) mod bufs = 0.
Proof.
  intros H. simpl. rewrite wrap32_pred by done. unfold wrap32.
  rewrite (N.mod_small (bufs - 1 + 1)) by lia.
  replace (bufs - 1 + 1) with bufs by lia. apply N.Div0.mod_same.
Qed.

(** A turn of the allocator's loop moves the hand one frame on and touches
    no descriptor but the one under the hand. *)
Lemma allocBuf_body_hand s :
  clockHand (allocBuf_body s).2 = wrap32 (clockHand s + 1) mod numBufs s ∧
  ∀ j, j ≠ clockHand (allocBuf_body s).2 →
    desc (allocBuf_body s).2 j = desc s j.
Proof.
  unfold allocBuf_body, advanceClock. munfold. simpl.
  set (h := wrap32 (clockHand s + 1) mod numBufs s).
  set (s1 := set_clockHand h s).
  change (desc s1 h) with (desc s h).
  destruct (valid (desc s h)); simpl; [|done].
  destruct (refbit (desc s h)); simpl.
  { split; [done|]. intros j Hj. by rewrite desc_set_desc_ne. }
  destruct (0 <? pinCnt (desc s h)); simpl; [done|].
  destruct (dirty (desc s h)); simpl;
    destruct (hashTable s !! (file (desc s h), pageNo (desc s h))); simpl;
    try done; split; try done; intros j Hj; by rewrite desc_set_desc_ne.
Qed.

Lemma allocBuf_loop_S n s :
  allocBuf_loop (S n) s =
    match allocBuf_body s with
    | (Ok (Some fr), s') => (Ok fr, s')
    | (Ok None, s') => allocBuf_loop n s'
    | (Throw e, s') => (Throw e, s')
    end.
Proof.
  simpl. unfold mbind, M_bind.
  by destruct (allocBuf_body s) as [[[fr|]|e] s'].
Qed.

Lemma allocBuf_body_BufMgr_new bufs :
  0 < bufs < 2 ^ 32 - 1 →
  allocBuf_body (BufMgr_new bufs) =
    (Ok (Some 0), set_clockHand 0 (BufMgr_new bufs)).
Proof.
  intros H. unfold allocBuf_body, advanceClock. munfold.
  cbn [numBufs BufMgr_new]. rewrite new_hand_advance by done.
  change (clockHand (set_clockHand 0 (BufMgr_new bufs))) with 0.
  change (desc (set_clockHand 0 (BufMgr_new bufs)) 0)
    with (desc (BufMgr_new bufs) 0).
  rewrite desc_BufMgr_new. done.
Qed.

Lemma allocBuf_BufMgr_new bufs :
  0 < bufs < 2 ^ 32 - 1 →
  allocBuf (BufMgr_new bufs) = (Ok 0, set_clockHand 0 (BufMgr_new bufs)).
Proof.
  intros H. unfold allocBuf.
  by rewrite allocBuf_loop_S, allocBuf_body_BufMgr_new.
Qed.

(** C7.  The constructor leaves the clock hand at [numBufs - 1]; every turn
    of the allocator's loop first moves the hand one frame on, modulo
    [numBufs], and inspects only the frame it lands on; so the first
    allocation inspects, and returns, frame 0.  In a pool of 3 frames holding
    pages 1, 2, 3 of a file (hand at frame 2), all unpinned with their
    reference bits set, a fetch of page 4 clears the reference bits of frames
    0, 1, 2 in the first three turns and evicts frame 0 in the fourth. *)
Theorem clock_hand_first_allocation_and_second_pass bufs :
  0 < bufs < 2 ^ 32 - 1 →
  clockHand (BufMgr_new bufs) = bufs - 1 ∧
  (∀ s, wf s →
     clockHand (allocBuf_body s).2 = (clockHand s + 1) mod numBufs s ∧
     ∀ j, j ≠ clockHand (allocBuf_body s).2 →
       desc (allocBuf_body s).2 j = desc s j) ∧
  allocBuf (BufMgr_new bufs) = (Ok 0, set_clockHand 0 (BufMgr_new bufs)) ∧
  clockHand three_pages_unpinned = 2 ∧
  map (λ d, (pageNo d, valid d, pinCnt d, refbit d))
      (bufDescTable three_pages_unpinned)
    = [(1, true, 0, true); (2, true, 0, true); (3, true, 0, true)] ∧
  map (λ n, ((allocBuf_body (allocBuf_turns n three_pages_unpinned)).1,
             clockHand (allocBuf_body (allocBuf_turns n three_pages_unpinned)).2))
      [0; 1; 2]%nat
    = [(Ok None, 0); (Ok None, 1); (Ok None, 2)] ∧
  map (λ d, (pageNo d, valid d, pinCnt d, refbit d))
      (bufDescTable (allocBuf_turns 3 three_pages_unpinned))
    = [(1, true, 0, false); (2, true, 0, false); (3, true, 0, false)] ∧
  (allocBuf_body (allocBuf_turns 3 three_pages_unpinned)).1 = Ok (Some 0) ∧
  (readPage 7 4 (Some [4]) three_pages_unpinned).1 = Ok 0 ∧
  map (λ d, (pageNo d, valid d, pinCnt d, refbit d))
      (bufDescTable (readPage 7 4 (Some [4]) three_pages_unpinned).2)
    = [(4, true, 1, true); (2, true, 0, false); (3, true, 0, false)] ∧
  hashTable (readPage 7 4 (Some [4]) three_pages_unpinned).2 !! (7, 1) = None ∧
  hashTable (readPage 7 4 (Some [4]) three_pages_unpinned).2 !! (7, 4) = Some 0.
Proof.
  intros H. split_and!.
  - simpl. by apply wrap32_pred.
  - intros s Hwf. destruct (allocBuf_body_hand s) as [Hh Hd].
    split; [|done]. rewrite Hh. by apply next_hand_eq.
  - by apply allocBuf_BufMgr_new.
  - vm_compute; reflexivity.
  - vm_compute; reflexivity.
  - vm_compute; reflexivity.
  - vm_compute; reflexivity.
  - vm_compute; reflexivity.
  - vm_compute; reflexivity.
  - vm_compute; reflexivity.
  - vm_compute; reflexivity.
  - vm_compute; reflexivity.
Qed.

Lemma clock_hand_first_allocation_and_second_pass_witness :
  clockHand (BufMgr_new 3) = 2 ∧
  allocBuf (BufMgr_new 3) = (Ok 0, set_clockHand 0 (BufMgr_new 3)).
Proof.
  destruct (clock_hand_first_allocation_and_second_pass 3 ltac:(lia))
    as (Hhand & _ & Hfirst & _).
  split; [exact Hhand | exact Hfirst].
Defined.

(** C2.  The allocator's loop makes at most [numBufs + 1] turns, and that
    is too few for its second pass: in a reachable pool of two frames where
    frame 0 is pinned and frame 1 is valid and unpinned, both with their
    reference bits set, the three turns clear the two bits and then meet the
    pinned frame, and the allocator throws the capacity exception although
    frame 1 could be evicted. *)
Theorem allocBuf_gives_up_with_an_unpinned_frame :
  reachable 2 one_pinned_one_unpinned ∧
  map (λ d, (pageNo d, valid d, pinCnt d, refbit d))
      (bufDescTable one_pinned_one_unpinned)
    = [(1, true, 1, true); (2, true, 0, true)] ∧
  clockHand one_pinned_one_unpinned = 1 ∧
  map (λ n, ((allocBuf_body (allocBuf_turns n one_pinned_one_unpinned)).1,
             clockHand (allocBuf_body (allocBuf_turns n one_pinned_one_unpinned)).2))
      [0; 1; 2]%nat
    = [(Ok None, 0); (Ok None, 1); (Ok None, 0)] ∧
  (allocBuf one_pinned_one_unpinned).1 = Throw BufferExceededException ∧
  (readPage 7 3 (Some [3]) one_pinned_one_unpinned).1
    = Throw BufferExceededException.
Proof.
  split_and!.
  - unfold one_pinned_one_unpinned, run_ops. simpl foldl.
    repeat (apply reachable_step; [|by (exact I || (unfold admissible, NULL; lia))]).
    apply reachable_new.
  - vm_compute; reflexivity.
  - vm_compute; reflexivity.
  - vm_compute; reflexivity.
  - vm_compute; reflexivity.
  - vm_compute; reflexivity.
Qed.

(** ** When the allocator succeeds and when it gives up *)

Lemma next_hand_cases s :
  wf s →
  next_hand s < numBufs s ∧
  ((clockHand s + 1 < numBufs s ∧ next_hand s = clockHand s + 1) ∨
   (clockHand s + 1 = numBufs s ∧ next_hand s = 0)).
Proof.
  intros Hwf. unfold next_hand. split; [by apply next_hand_lt|].
  rewrite next_hand_eq by done.
  pose proof (wf_hand _ Hwf) as Hh.
  destruct (decide (clockHand s + 1 = numBufs s)) as [He|Hne].
  - right. split; [done|]. rewrite He. apply N.Div0.mod_same.
  - left. split; [lia|]. apply N.mod_small. lia.
Qed.

Lemma allocBuf_body_eq s :
  allocBuf_body s =
    let h := next_hand s in
    let s1 := set_clockHand h s in
    let d := desc s h in
    if negb (valid d) then (Ok (Some h), s1)
    else if refbit d then (Ok None, set_desc h (with_refbit false d) s1)
    else if 0 <? pinCnt d then (Ok None, s1)
    else
      let s2 := if dirty d
                then log_io (EvWritePage (file d) (page_at s h)) s1 else s1 in
      match hashTable s !! (file d, pageNo d) with
      | Some _ =>
          (Ok (Some h),
           set_desc h (BufDesc_Clear d)
             (set_hashTable (delete (file d, pageNo d) (hashTable s)) s2))
      | None => (Throw HashNotFoundException, s2)
      end.
Proof.
  unfold allocBuf_body, advanceClock, next_hand. munfold. simpl.
  set (h := wrap32 (clockHand s + 1) mod numBufs s).
  change (desc (set_clockHand h s) h) with (desc s h).
  destruct (valid (desc s h)); simpl; [|done].
  destruct (refbit (desc s h)); simpl; [done|].
  destruct (0 <? pinCnt (desc s h)); simpl; [done|].
  by destruct (dirty (desc s h)); simpl;
    destruct (hashTable s !! (file (desc s h), pageNo (desc s h))).
Qed.

(** What one turn of the loop does, by the frame under the advanced hand. *)
Lemma allocBuf_body_turn s :
  wf s →
  (takeable s (next_hand s) →
     ∃ s', allocBuf_body s = (Ok (Some (next_hand s)), s')) ∧
  (passed_over s (next_hand s) →
     ∃ s', allocBuf_body s = (Ok None, s') ∧ wf s' ∧
       numBufs s' = numBufs s ∧ clockHand s' = next_hand s ∧
       valid (desc s' (next_hand s)) = true ∧
       refbit (desc s' (next_hand s)) = false ∧
       pinCnt (desc s' (next_hand s)) = pinCnt (desc s (next_hand s)) ∧
       ∀ j, j ≠ next_hand s → desc s' j = desc s j).
Proof.
  intros Hwf.
  destruct (next_hand_cases s Hwf) as [Hh _].
  pose proof (wf_in_range _ _ Hwf Hh) as Hr.
  assert (Hwf1 : wf (set_clockHand (next_hand s) s))
    by by apply wf_set_clockHand.
  rewrite allocBuf_body_eq. cbv zeta.
  set (h := next_hand s) in *. split.
  - intros [Hinv | [Hrb Hpin]].
    + rewrite Hinv. simpl. by eexists.
    + destruct (valid (desc s h)) eqn:Hv; simpl; [|by eexists].
      rewrite Hrb, Hpin. simpl.
      destruct (wf_valid _ Hwf h Hh Hv) as [_ Hlk]. rewrite Hlk. by eexists.
  - intros [Hv Hrp]. rewrite Hv. simpl.
    destruct (refbit (desc s h)) eqn:Hrb.
    + eexists. split; [done|]. split_and!; try done.
      * apply wf_set_desc_same_identity; try done. simpl. congruence.
      * by rewrite desc_set_desc_eq.
      * by rewrite desc_set_desc_eq.
      * by rewrite desc_set_desc_eq.
      * intros j Hj. by rewrite desc_set_desc_ne.
    + destruct Hrp as [Hrp|Hrp]; [done|].
      rewrite (proj2 (N.ltb_lt _ _) Hrp).
      eexists. split; [done|]. by split_and!.
Qed.

(** Every frame is takeable or passed over. *)
Lemma takeable_or_passed_over s t : takeable s t ∨ passed_over s t.
Proof.
  unfold takeable, passed_over.
  destruct (valid (desc s t)); [|by left; left].
  destruct (refbit (desc s t)); [by right; split; [|left]|].
  destruct (N.eq_0_gt_0_cases (pinCnt (desc s t))) as [Hz|Hp].
  - left. right. done.
  - right. split; [done|]. by right.
Qed.

(** A takeable frame is reached, unless an earlier turn already returned. *)
Lemma allocBuf_loop_reaches turns s t :
  wf s → t < numBufs s → takeable s t →
  (N.to_nat (frames_ahead (clockHand s) t (numBufs s)) < turns)%nat →
  ∃ fr s', allocBuf_loop turns s = (Ok fr, s').
Proof.
  revert s. induction turns as [|turns IH]; intros s Hwf Ht Htake Hd; [lia|].
  rewrite allocBuf_loop_S.
  destruct (allocBuf_body_turn s Hwf) as [Htk Hpo].
  destruct (takeable_or_passed_over s (next_hand s)) as [Hnext|Hnext].
  { destruct (Htk Hnext) as [s' ->]. by eexists _, _. }
  destruct (Hpo Hnext) as (s' & -> & Hwf' & Hn' & Hc' & _ & _ & _ & Hoth).
  assert (Hne : t ≠ next_hand s).
  { intros ->. destruct Hnext as [Hv Hrp].
    destruct Htake as [Hinv | [Hrb Hpin]]; [congruence|].
    destruct Hrp as [Hrp|Hrp]; [congruence|lia]. }
  apply (IH s' Hwf'); [by rewrite Hn'| |].
  - unfold takeable. by rewrite (Hoth t Hne).
  - rewrite Hn', Hc'.
    destruct (next_hand_cases s Hwf) as [_ [[Hlt He] | [Heq He]]];
      rewrite He in *; clear He; unfold frames_ahead in *;
      repeat match goal with
             | |- context [?a <? ?b] => destruct (N.ltb_spec a b)
             | H : context [?a <? ?b] |- _ => destruct (N.ltb_spec a b)
             end; lia.
Qed.

Lemma frames_ahead_next s t :
  wf s → t < numBufs s →
  (t = next_hand s ∧ frames_ahead (clockHand s) t (numBufs s) = 0 ∧
   frames_ahead (next_hand s) t (numBufs s) = numBufs s - 1) ∨
  (t ≠ next_hand s ∧
   frames_ahead (clockHand s) t (numBufs s)
     = frames_ahead (next_hand s) t (numBufs s) + 1).
Proof.
  intros Hwf Ht. pose proof (wf_hand _ Hwf) as Hh.
  destruct (next_hand_cases s Hwf) as [_ [[Hlt He] | [Heq He]]];
    rewrite He; clear He; unfold frames_ahead;
    repeat match goal with
           | |- context [?a <? ?b] => destruct (N.ltb_spec a b)
           end; lia.
Qed.

(** The loop runs out of turns when every frame it inspects is passed over,
    and pinned if it is inspected a second time. *)
Lemma allocBuf_loop_gives_up turns s :
  wf s →
  (∀ t, t < numBufs s →
     ((N.to_nat (frames_ahead (clockHand s) t (numBufs s)) < turns)%nat →
        passed_over s t) ∧
     ((N.to_nat (frames_ahead (clockHand s) t (numBufs s) + numBufs s) < turns)%nat →
        0 < pinCnt (desc s t))) →
  ∃ s', allocBuf_loop turns s = (Throw BufferExceededException, s').
Proof.
  revert s. induction turns as [|turns IH]; intros s Hwf Hall.
  { by eexists. }
  rewrite allocBuf_loop_S.
  destruct (next_hand_cases s Hwf) as [Hh _].
  destruct (allocBuf_body_turn s Hwf) as [_ Hpo].
  destruct (frames_ahead_next s (next_hand s) Hwf Hh) as [(_ & Hz & _)|[? _]];
    [|done].
  destruct (Hall _ Hh) as [Hfirst Hsecond].
  destruct (Hpo (Hfirst ltac:(lia)))
    as (s' & -> & Hwf' & Hn' & Hc' & Hv' & Hrb' & Hpin' & Hoth).
  apply (IH s' Hwf'). intros t Ht. rewrite Hn', Hc' in *.
  destruct (Hall t Ht) as [Hp1 Hp2].
  destruct (frames_ahead_next s t Hwf Ht) as [(-> & Ha & Hb)|[Hne Ha]].
  - assert (Hpinned : (N.to_nat (numBufs s - 1) < turns)%nat →
                      0 < pinCnt (desc s' (next_hand s))).
    { intros Hlt. rewrite Hpin'. apply Hp2. lia. }
    rewrite Hb. split.
    + intros Hlt. split; [done|]. right. by apply Hpinned.
    + intros Hlt. apply Hpinned. lia.
  - unfold passed_over. rewrite (Hoth t Hne). split.
    + intros Hlt. apply Hp1. lia.
    + intros Hlt. apply Hp2. lia.
Qed.

Lemma allocBuf_throws_iff s :
  wf s →
  (allocBuf s).1 = Throw BufferExceededException ↔
  (∀ t, t < numBufs s → passed_over s t) ∧
  0 < pinCnt (desc s (next_hand s)).
Proof.
  intros Hwf. destruct (next_hand_cases s Hwf) as [Hh _].
  pose proof (wf_numBufs _ Hwf) as Hn. pose proof (wf_hand _ Hwf) as Hhand.
  unfold allocBuf. split.
  - intros Hthrow.
    assert (Hall : ∀ t, t < numBufs s → passed_over s t).
    { intros t Ht. destruct (takeable_or_passed_over s t) as [Htake|]; [|done].
      destruct (allocBuf_loop_reaches (S (N.to_nat (numBufs s))) s t Hwf Ht Htake)
        as (fr & s' & Heq).
      - unfold frames_ahead. destruct (N.ltb_spec (clockHand s) t); lia.
      - rewrite Heq in Hthrow. done. }
    split; [done|].
    destruct (N.eq_0_gt_0_cases (pinCnt (desc s (next_hand s)))) as [Hz|]; [|done].
    exfalso. rewrite allocBuf_loop_S in Hthrow.
    destruct (allocBuf_body_turn s Hwf) as [_ Hpo].
    destruct (Hpo (Hall _ Hh))
      as (s' & Hb & Hwf' & Hn' & Hc' & Hv' & Hrb' & Hpin' & Hoth).
    rewrite Hb in Hthrow.
    destruct (allocBuf_loop_reaches (N.to_nat (numBufs s)) s' (next_hand s))
      as (fr & s'' & Heq); try done.
    + by rewrite Hn'.
    + right. split; [done|]. by rewrite Hpin'.
    + rewrite Hn', Hc'. unfold frames_ahead. rewrite N.ltb_irrefl. lia.
    + rewrite Heq in Hthrow. done.
  - intros [Hall Hpin].
    destruct (allocBuf_loop_gives_up (S (N.to_nat (numBufs s))) s Hwf)
      as [s' ->]; [|done].
    intros t Ht. split; [intros _; by apply Hall|].
    intros Hlt.
    destruct (frames_ahead_next s t Hwf Ht) as [(-> & _)|[_ Ha]]; [done|lia].
Qed.

(** The capacity exception, exactly: in a well-formed pool the allocator
    gives up if and only if every frame is valid and referenced or pinned,
    and the first frame it inspects is pinned. *)
Theorem allocBuf_gives_up_exactly s :
  wf s →
  (allocBuf s).1 = Throw BufferExceededException ↔
  (∀ t, t < numBufs s → passed_over s t) ∧
  0 < pinCnt (desc s (next_hand s)).
Proof. apply allocBuf_throws_iff. Qed.

Lemma allocBuf_gives_up_exactly_witness :
  (allocBuf one_pinned_one_unpinned).1 = Throw BufferExceededException ↔
  (∀ t, t < numBufs one_pinned_one_unpinned →
     passed_over one_pinned_one_unpinned t) ∧
  0 < pinCnt (desc one_pinned_one_unpinned (next_hand one_pinned_one_unpinned)).
Proof.
  apply (allocBuf_gives_up_exactly one_pinned_one_unpinned).
  unfold one_pinned_one_unpinned, run_ops. simpl foldl.
  repeat (apply exec_wf; [|by (exact I || (unfold admissible, NULL; lia))|done]).
  apply wf_BufMgr_new. lia.
Defined.

(** The allocator returns an empty frame of the pool whenever some frame is
    empty, or valid with its reference bit clear and no pin; also whenever
    the first frame it inspects is not pinned (the second pass comes back to
    it). *)
Theorem allocBuf_succeeds s t :
  wf s → t < numBufs s →
  takeable s t ∨ (t = next_hand s ∧ pinCnt (desc s t) = 0) →
  ∃ fr s', allocBuf s = (Ok fr, s') ∧ fr < numBufs s ∧
           valid (desc s' fr) = false ∧ wf s'.
Proof.
  intros Hwf Ht Hcase.
  destruct (allocBuf s) as [[fr|e] s'] eqn:Ha;
    destruct (allocBuf_wf _ _ _ Hwf Ha) as (Hwf' & _ & _ & Hr).
  { exists fr, s'. by destruct Hr. }
  exfalso. subst e.
  assert (Hthrow : (allocBuf s).1 = Throw BufferExceededException)
    by by rewrite Ha.
  apply (allocBuf_throws_iff s Hwf) in Hthrow as [Hall Hpin].
  destruct Hcase as [Htake | [-> Hz]]; [|lia].
  destruct (Hall t Ht) as [Hv Hrp].
  destruct Htake as [Hinv | [Hrb Hz]]; [congruence|].
  destruct Hrp as [Hrp|Hrp]; [congruence|lia].
Qed.

Lemma allocBuf_succeeds_witness :
  ∃ fr s', allocBuf three_pages_unpinned = (Ok fr, s') ∧
           fr < numBufs three_pages_unpinned ∧
           valid (desc s' fr) = false ∧ wf s'.
Proof.
  apply (allocBuf_succeeds three_pages_unpinned 0).
  - unfold three_pages_unpinned, run_ops. simpl foldl.
    repeat (apply exec_wf; [|by (exact I || (unfold admissible, NULL; lia))|done]).
    apply wf_BufMgr_new. lia.
  - vm_compute; reflexivity.
  - right. split; vm_compute; reflexivity.
Defined.

(** With every frame valid and pinned, the allocator throws the capacity
    exception: after [numBufs] pages are fetched and held, one more fetch of
    a new page fails. *)
Theorem allocBuf_all_pinned_gives_up s :
  wf s →
  (∀ t, t < numBufs s → valid (desc s t) = true ∧ 0 < pinCnt (desc s t)) →
  (allocBuf s).1 = Throw BufferExceededException ∧
  ∀ f p onDisk, hashTable s !! (f, p) = None →
    (readPage f p onDisk s).1 = Throw BufferExceededException.
Proof.
  intros Hwf Hall.
  assert (Hthrow : (allocBuf s).1 = Throw BufferExceededException).
  { apply (allocBuf_throws_iff s Hwf).
    destruct (next_hand_cases s Hwf) as [Hh _]. split.
    - intros t Ht. destruct (Hall t Ht). split; [done|]. by right.
    - by destruct (Hall _ Hh). }
  split; [done|].
  intros f p onDisk Hmiss. rewrite readPage_miss by done.
  destruct (allocBuf s) as [[fr|e] s']; simpl in *; congruence.
Qed.

Lemma allocBuf_all_pinned_gives_up_witness :
  (allocBuf two_pages_pinned).1 = Throw BufferExceededException ∧
  ∀ f p onDisk,
    hashTable two_pages_pinned !! (f, p) = None →
    (readPage f p onDisk two_pages_pinned).1 = Throw BufferExceededException.
Proof.
  apply allocBuf_all_pinned_gives_up.
  - unfold two_pages_pinned, run_ops. simpl foldl.
    repeat (apply exec_wf; [|by (exact I || (unfold admissible, NULL; lia))|done]).
    apply wf_BufMgr_new. lia.
  - intros t Ht.
    assert (Hn : numBufs two_pages_pinned = 2) by (vm_compute; reflexivity).
    rewrite Hn in Ht.
    assert (t = 0 ∨ t = 1) as [-> | ->] by lia;
      split; vm_compute; reflexivity.
Defined.

(** ** What a scan of the allocator changes *)

Lemma refbit_cleared_refl d : refbit_cleared d d.
Proof. by left. Qed.

Lemma refbit_cleared_trans d1 d2 d3 :
  refbit_cleared d1 d2 → refbit_cleared d2 d3 → refbit_cleared d1 d3.
Proof.
  intros [-> | [Hv ->]] [-> | [Hv' ->]].
  - by left.
  - by right.
  - by right.
  - right. done.
Qed.

Lemma refbit_cleared_fields d d' :
  refbit_cleared d d' →
  frameNo d' = frameNo d ∧ file d' = file d ∧ pageNo d' = pageNo d ∧
  pinCnt d' = pinCnt d ∧ dirty d' = dirty d ∧ valid d' = valid d ∧
  BufDesc_Clear d' = BufDesc_Clear d.
Proof. by intros [-> | [_ ->]]. Qed.

(** One turn of the loop on a well-formed pool. *)
Lemma allocBuf_body_effect s :
  wf s →
  ∃ o s', allocBuf_body s = (Ok o, s') ∧ wf s' ∧
    bufPool s' = bufPool s ∧ clockHand s' = next_hand s ∧
    match o with
    | None =>
        hashTable s' = hashTable s ∧ ioLog s' = ioLog s ∧
        ∀ j, refbit_cleared (desc s j) (desc s' j)
    | Some fr =>
        fr = next_hand s ∧ frame_taken s s' fr ∧
        ∀ j, j ≠ fr → desc s' j = desc s j
    end.
Proof.
  intros Hwf.
  destruct (next_hand_cases s Hwf) as [Hh _].
  pose proof (wf_in_range _ _ Hwf Hh) as Hr.
  destruct (allocBuf_body s) as [r s'] eqn:Hb.
  destruct (allocBuf_body_wf _ _ _ Hwf Hb) as (Hwf' & _ & _ & o & -> & _).
  exists o, s'. split; [done|]. split; [done|].
  revert Hb. rewrite allocBuf_body_eq. cbv zeta.
  set (h := next_hand s) in *.
  destruct (valid (desc s h)) eqn:Hv; simpl.
  2:{ intros [= <- <-]. split_and!; try done. left. by split_and!. }
  destruct (refbit (desc s h)) eqn:Hrb.
  { intros [= <- <-]. split_and!; try done.
    intros j. destruct (decide (j = h)) as [->|Hne].
    - rewrite desc_set_desc_eq by done. by right.
    - rewrite desc_set_desc_ne by done. by left. }
  destruct (0 <? pinCnt (desc s h)) eqn:Hp.
  { intros [= <- <-]. split_and!; try done. intros j. by left. }
  apply N.ltb_ge in Hp.
  destruct (wf_valid _ Hwf h Hh Hv) as [_ Hlk]. rewrite Hlk.
  intros [= <- <-]. split_and!; try done.
  - by destruct (dirty (desc s h)).
  - by destruct (dirty (desc s h)).
  - right. split_and!; try done.
    + lia.
    + apply desc_set_desc_eq. by destruct (dirty (desc s h)).
    + unfold writeback_of. by destruct (dirty (desc s h)).
  - intros j Hj. rewrite desc_set_desc_ne by done.
    by destruct (dirty (desc s h)).
Qed.

Lemma frame_taken_after_pass s s1 s' fr :
  bufPool s1 = bufPool s → hashTable s1 = hashTable s → ioLog s1 = ioLog s →
  refbit_cleared (desc s fr) (desc s1 fr) →
  frame_taken s1 s' fr → frame_taken s s' fr.
Proof.
  intros Hpool Hh Hio Hrc Htaken.
  destruct (refbit_cleared_fields _ _ Hrc) as (_ & Hf & Hp & Hpin & Hd & Hv & Hcl).
  assert (Hw : writeback_of s1 fr = writeback_of s fr).
  { unfold writeback_of, page_at. by rewrite Hd, Hf, Hpool. }
  destruct Htaken as [(Hinv & Hsame & Hh' & Hio') | (Hval & Hz & Hclr & Hh' & Hio')].
  - left. rewrite Hv in Hinv. split_and!; try congruence.
    destruct Hrc as [He | [Hv1 _]]; congruence.
  - right. split_and!; try congruence.
Qed.

Lemma allocBuf_loop_effect turns s r s' :
  wf s → allocBuf_loop turns s = (r, s') →
  bufPool s' = bufPool s ∧
  match r with
  | Throw _ =>
      hashTable s' = hashTable s ∧ ioLog s' = ioLog s ∧
      ∀ j, refbit_cleared (desc s j) (desc s' j)
  | Ok fr =>
      clockHand s' = fr ∧ frame_taken s s' fr ∧
      ∀ j, j ≠ fr → refbit_cleared (desc s j) (desc s' j)
  end.
Proof.
  revert s r s'. induction turns as [|turns IH]; intros s r s' Hwf.
  { simpl. intros [= <- <-]. split_and!; try done. intros j. by left. }
  rewrite allocBuf_loop_S.
  destruct (allocBuf_body_effect s Hwf)
    as (o & s1 & -> & Hwf1 & Hpool1 & Hc1 & Ho).
  destruct o as [fr|].
  - destruct Ho as (-> & Htaken & Hoth). intros [= <- <-].
    split_and!; try done. intros j Hj. left. by apply Hoth.
  - destruct Ho as (Hh1 & Hio1 & Hrc1). intros Hl.
    destruct (IH s1 r s' Hwf1 Hl) as (Hpool & Hr).
    split; [congruence|].
    destruct r as [fr|e].
    + destruct Hr as (Hc & Htaken & Hoth). split_and!; try done.
      * by apply (frame_taken_after_pass s s1 s' fr).
      * intros j Hj. by apply (refbit_cleared_trans _ (desc s1 j)); [|apply Hoth].
    + destruct Hr as (Hh & Hio & Hrc). split_and!; try congruence.
      intros j. by apply (refbit_cleared_trans _ (desc s1 j)).
Qed.

Lemma allocBuf_effect s r s' :
  wf s → allocBuf s = (r, s') →
  wf s' ∧ numBufs s' = numBufs s ∧ bufPool s' = bufPool s ∧
  match r with
  | Throw e =>
      e = BufferExceededException ∧
      hashTable s' = hashTable s ∧ ioLog s' = ioLog s ∧
      ∀ j, refbit_cleared (desc s j) (desc s' j)
  | Ok fr =>
      fr < numBufs s ∧ clockHand s' = fr ∧ frame_taken s s' fr ∧
      ∀ j, j ≠ fr → refbit_cleared (desc s j) (desc s' j)
  end.
Proof.
  intros Hwf Ha.
  destruct (allocBuf_wf _ _ _ Hwf Ha) as (Hwf' & Hn & _ & Hr).
  destruct (allocBuf_loop_effect _ _ _ _ Hwf Ha) as (Hpool & Hr').
  split_and!; try done.
  destruct r as [fr|e].
  - destruct Hr as [Hfr _]. destruct Hr' as (? & ? & ?). by split_and!.
  - destruct Hr' as (? & ? & ?). by split_and!.
Qed.

(** A pinned resident page is out of the allocator's reach. *)
Lemma allocBuf_keeps_pinned s r s' f p fr :
  wf s → allocBuf s = (r, s') → resident s f p fr → 0 < pinCnt (desc s fr) →
  resident s' f p fr ∧ refbit_cleared (desc s fr) (desc s' fr) ∧ r ≠ Ok fr.
Proof.
  intros Hwf Ha Hres Hpin.
  destruct (wf_index _ Hwf _ _ _ Hres) as (Hfr & Hv & Hf & Hp).
  destruct (allocBuf_effect _ _ _ Hwf Ha) as (Hwf' & Hn & Hpool & Hr).
  destruct r as [fr0|e].
  - destruct Hr as (Hfr0 & Hc & Htaken & Hoth).
    assert (Hne : fr ≠ fr0).
    { intros ->. destruct Htaken as [(Hinv & _) | (_ & Hz & _)]; [congruence|lia]. }
    split_and!; [|by apply Hoth|congruence].
    unfold resident.
    destruct Htaken as [(_ & _ & -> & _) | (Hv0 & _ & _ & -> & _)]; [done|].
    rewrite lookup_delete_ne; [done|].
    intros Hk. destruct (wf_valid _ Hwf fr0 Hfr0 Hv0) as [_ Hlk0].
    rewrite Hk in Hlk0. unfold resident in Hres. congruence.
  - destruct Hr as (_ & Hh & _ & Hrc). split_and!; [|done|done].
    unfold resident. by rewrite Hh.
Qed.

(** The allocator never takes a pinned frame: whatever the call does, a
    frame with a pin keeps its page, its pin count, its dirty flag, its
    buffer and its index entry; at most its reference bit is cleared. *)
Theorem allocBuf_never_evicts_pinned s j :
  wf s → j < numBufs s → 0 < pinCnt (desc s j) →
  (allocBuf s).1 ≠ Ok j ∧
  refbit_cleared (desc s j) (desc (allocBuf s).2 j) ∧
  page_at (allocBuf s).2 j = page_at s j ∧
  resident (allocBuf s).2 (file (desc s j)) (pageNo (desc s j)) j.
Proof.
  intros Hwf Hj Hpin.
  assert (Hv : valid (desc s j) = true).
  { destruct (valid (desc s j)) eqn:Hv; [done|].
    destruct (wf_invalid _ Hwf j Hj Hv) as (Hz & _). lia. }
  destruct (wf_valid _ Hwf j Hj Hv) as [_ Hlk].
  destruct (allocBuf s) as [r s'] eqn:Ha. simpl.
  destruct (allocBuf_keeps_pinned s r s' _ _ j Hwf Ha Hlk Hpin) as (Hres & Hrc & Hne).
  destruct (allocBuf_effect _ _ _ Hwf Ha) as (_ & _ & Hpool & _).
  split_and!; try done. unfold page_at. by rewrite Hpool.
Qed.

Lemma allocBuf_never_evicts_pinned_witness :
  (allocBuf one_pinned_one_unpinned).1 ≠ Ok 0 ∧
  refbit_cleared (desc one_pinned_one_unpinned 0)
                 (desc (allocBuf one_pinned_one_unpinned).2 0) ∧
  page_at (allocBuf one_pinned_one_unpinned).2 0
    = page_at one_pinned_one_unpinned 0 ∧
  resident (allocBuf one_pinned_one_unpinned).2
    (file (desc one_pinned_one_unpinned 0))
    (pageNo (desc one_pinned_one_unpinned 0)) 0.
Proof.
  apply (allocBuf_never_evicts_pinned one_pinned_one_unpinned 0).
  - unfold one_pinned_one_unpinned, run_ops. simpl foldl.
    repeat (apply exec_wf; [|by (exact I || (unfold admissible, NULL; lia))|done]).
    apply wf_BufMgr_new. lia.
  - vm_compute; reflexivity.
  - vm_compute; reflexivity.
Defined.



(** A scan that finds no frame evicts nothing and calls the file for
    nothing: the exception is the capacity exception, and the index, the
    buffers and the log are as before; only reference bits were cleared. *)
Theorem allocBuf_failure_changes_only_refbits s e :
  wf s → (allocBuf s).1 = Throw e →
  e = BufferExceededException ∧
  hashTable (allocBuf s).2 = hashTable s ∧
  ioLog (allocBuf s).2 = ioLog s ∧
  bufPool (allocBuf s).2 = bufPool s ∧
  numBufs (allocBuf s).2 = numBufs s ∧
  (∀ j, refbit_cleared (desc s j) (desc (allocBuf s).2 j)) ∧
  wf (allocBuf s).2.
Proof.
  intros Hwf. destruct (allocBuf s) as [r s'] eqn:Ha. simpl. intros ->.
  destruct (allocBuf_effect _ _ _ Hwf Ha) as (Hwf' & Hn & Hpool & -> & Hh & Hio & Hrc).
  by split_and!.
Qed.

Lemma allocBuf_failure_changes_only_refbits_witness :
  BufferExceededException = BufferExceededException ∧
  hashTable (allocBuf two_pages_pinned).2 = hashTable two_pages_pinned ∧
  ioLog (allocBuf two_pages_pinned).2 = ioLog two_pages_pinned ∧
  bufPool (allocBuf two_pages_pinned).2 = bufPool two_pages_pinned ∧
  numBufs (allocBuf two_pages_pinned).2 = numBufs two_pages_pinned ∧
  (∀ j, refbit_cleared (desc two_pages_pinned j)
                       (desc (allocBuf two_pages_pinned).2 j)) ∧
  wf (allocBuf two_pages_pinned).2.
Proof.
  apply (allocBuf_failure_changes_only_refbits two_pages_pinned).
  - unfold two_pages_pinned, run_ops. simpl foldl.
    repeat (apply exec_wf; [|by (exact I || (unfold admissible, NULL; lia))|done]).
    apply wf_BufMgr_new. lia.
  - vm_compute; reflexivity.
Defined.

(** ** Bringing a page into the pool *)

Lemma allocPage_eq f np content s :
  allocPage f np content s =
    match allocBuf (log_io (EvAllocatePage f np) s) with
    | (Throw e, s1) => (Throw e, s1)
    | (Ok fr, s1) =>
        let s2 := log_io (EvReadPage f np)
                    (set_hashTable (<[(f, np) := fr]> (hashTable s1)) s1) in
        match content with
        | None => (Throw InvalidPageException, s2)
        | Some pg =>
            (Ok (np, fr),
             set_desc fr (BufDesc_Set f np (desc (set_page fr pg s2) fr))
               (set_page fr pg s2))
        end
    end.
Proof.
  unfold allocPage. munfold. simpl.
  destruct (allocBuf (log_io (EvAllocatePage f np) s)) as [[fr|e] s1]; [|done].
  by destruct content.
Qed.








(** ** [allocPage] *)



(** [allocPage] asks the file for the new page before it looks for a frame,
    and enters the new page in the index before it reads it.  When it throws,
    one of two things has happened.  Either the allocator found no frame: the
    exception is the capacity exception, the allocation is the one call the
    file has seen, no frame holds the new page, and the index and the buffers
    are as before.  Or the allocator gave a frame and the read of the new page
    failed: the exception is the invalid-page exception, and the state is the
    one the allocator left with the index entry for the new page added and
    the read recorded; that entry names the frame, which is invalid. *)
Theorem allocPage_failure_after_allocation s f np content e :
  wf s → (allocPage f np content s).1 = Throw e →
  (e = BufferExceededException ∧
   ioLog (allocPage f np content s).2 = EvAllocatePage f np :: ioLog s ∧
   hashTable (allocPage f np content s).2 = hashTable s ∧
   bufPool (allocPage f np content s).2 = bufPool s ∧
   (∀ j, refbit_cleared (desc s j) (desc (allocPage f np content s).2 j)) ∧
   wf (allocPage f np content s).2) ∨
  (e = InvalidPageException ∧ content = None ∧
   ∃ fr s1,
     allocBuf (log_io (EvAllocatePage f np) s) = (Ok fr, s1) ∧
     fr < numBufs s ∧
     (allocPage f np content s).2 =
       log_io (EvReadPage f np)
         (set_hashTable (<[(f, np) := fr]> (hashTable s1)) s1) ∧
     hashTable (allocPage f np content s).2 !! (f, np) = Some fr ∧
     valid (desc (allocPage f np content s).2 fr) = false ∧
     bufPool (allocPage f np content s).2 = bufPool s).
Proof.
  intros Hwf. rewrite allocPage_eq.
  set (s0 := log_io (EvAllocatePage f np) s).
  assert (Hwf0 : wf s0) by by apply wf_log_io.
  destruct (allocBuf s0) as [[fr0|e'] s1] eqn:Ha.
  - cbv zeta. destruct content as [pg|]; [done|].
    simpl. intros [= <-]. right.
    destruct (allocBuf_wf _ _ _ Hwf0 Ha) as (_ & _ & _ & _ & Hinv).
    destruct (allocBuf_effect _ _ _ Hwf0 Ha) as (_ & _ & Hpool & Hfr & _).
    split_and!; try done.
    exists fr0, s1. split_and!; try done.
    apply lookup_insert_eq.
  - simpl. intros [= <-]. left.
    destruct (allocBuf_effect _ _ _ Hwf0 Ha)
      as (Hwf1 & _ & Hpool & -> & Hh & Hio & Hrc).
    by split_and!.
Qed.

Lemma allocPage_failure_after_allocation_witness :
  (allocPage 7 3 (Some [0]) two_pages_pinned).1 = Throw BufferExceededException ∧
  ioLog (allocPage 7 3 (Some [0]) two_pages_pinned).2
    = EvAllocatePage 7 3 :: ioLog two_pages_pinned ∧
  hashTable (allocPage 7 3 (Some [0]) two_pages_pinned).2 !! (7, 3) = None.
Proof.
  assert (Hwf : wf two_pages_pinned).
  { unfold two_pages_pinned, run_ops. simpl foldl.
    repeat (apply exec_wf; [|by (exact I || (unfold admissible, NULL; lia))|done]).
    apply wf_BufMgr_new. lia. }
  assert (Hthrow : (allocPage 7 3 (Some [0]) two_pages_pinned).1
                   = Throw BufferExceededException) by (vm_compute; reflexivity).
  destruct (allocPage_failure_after_allocation _ 7 3 (Some [0]) _ Hwf Hthrow)
    as [(_ & Hio & Hh & _) | (_ & Hc & _)]; [|discriminate Hc].
  split_and!; [exact Hthrow | exact Hio |]. rewrite Hh. vm_compute; reflexivity.
Defined.

(** ** [flushFile] and the rest of the pool *)

Lemma flushFile_loop_no_frame f turns i s :
  N.of_nat turns + i ≤ numBufs s →
  (∀ j, j < numBufs s → file (desc s j) ≠ f) →
  flushFile_loop f turns i s = (Ok tt, s).
Proof.
  revert i. induction turns as [|turns IH]; intros i Hle Hnone; [done|].
  simpl. unfold mbind, M_bind.
  assert (Hb : flushFile_body f i s = (Ok tt, s)).
  { unfold flushFile_body. munfold. simpl.
    by rewrite (proj2 (N.eqb_neq _ _) (Hnone i ltac:(lia))). }
  rewrite Hb. apply IH; [lia|done].
Qed.

(** Flushing the null file pointer never gets past an empty frame and never
    changes the state. *)
Lemma flushFile_loop_NULL turns i s :
  wf s → N.of_nat turns + i ≤ numBufs s →
  (flushFile_loop NULL turns i s).2 = s.
Proof.
  intros Hwf. revert i. induction turns as [|turns IH]; intros i Hle; [done|].
  assert (Hi : i < numBufs s) by lia.
  simpl. unfold mbind, M_bind.
  rewrite flushFile_body_eq by by apply wf_in_range.
  destruct (file (desc s i) =? NULL) eqn:Hf.
  - apply N.eqb_eq in Hf.
    destruct (valid (desc s i)) eqn:Hv.
    { by destruct (wf_valid _ Hwf i Hi Hv). }
    destruct (wf_invalid _ Hwf i Hi Hv) as (Hz & Hd & _).
    rewrite Hz, Hd. simpl.
    destruct (hashTable s !! (NULL, pageNo (desc s i))) as [j|] eqn:Hlk; [|done].
    exfalso. destruct (wf_index _ Hwf _ _ _ Hlk) as (Hj & Hvj & Hfj & _).
    by destruct (wf_valid _ Hwf j Hj Hvj).
  - apply IH. lia.
Qed.

Lemma flushFile_full_effect f s r s' :
  wf s → f ≠ NULL → flushFile f s = (r, s') →
  wf s' ∧ numBufs s' = numBufs s ∧ bufPool s' = bufPool s ∧
  clockHand s' = clockHand s ∧
  (∀ k v, hashTable s' !! k = Some v → hashTable s !! k = Some v) ∧
  (∀ j, j < numBufs s → file (desc s j) ≠ f → desc s' j = desc s j) ∧
  (∀ j, j < numBufs s → 0 < pinCnt (desc s j) → desc s' j = desc s j) ∧
  ∃ new, ioLog s' = new ++ ioLog s ∧
    ∀ ev, ev ∈ new → ∃ j, ev = EvWritePage f (page_at s j).
Proof.
  intros Hwf Hf Hfl. unfold flushFile in Hfl.
  destruct (flushFile_loop_effect f (N.to_nat (numBufs s)) 0 s r s' Hwf Hf
              ltac:(lia) Hfl)
    as (Hwf' & Hn' & Hpool & Hc & Hsub & _ & new & Hio & Hev & Hr).
  assert (Hframes : ∀ j, j < numBufs s →
            (file (desc s j) ≠ f ∨ 0 < pinCnt (desc s j)) →
            desc s' j = desc s j).
  { intros j Hj Hcase. destruct r as [[]|e].
    - destruct (Hr j ltac:(lia)) as [Hsame Hother].
      destruct (decide (file (desc s j) = f)) as [He|Hne]; [|by apply Hother].
      destruct (Hsame He) as (Hz & _). destruct Hcase as [?|?]; [done|lia].
    - destruct Hr as (k & Hk & _ & _ & _ & Hbefore & Hafter).
      destruct (N.lt_ge_cases j k) as [Hlt|Hge]; [|by apply Hafter].
      destruct (Hbefore j ltac:(lia)) as [Hsame Hother].
      destruct (decide (file (desc s j) = f)) as [He|Hne]; [|by apply Hother].
      destruct (Hsame He) as (Hz & _). destruct Hcase as [?|?]; [done|lia]. }
  split_and!; try done.
  - intros j Hj Hne. apply Hframes; [done|by left].
  - intros j Hj Hpin. apply Hframes; [done|by right].
  - by exists new.
Qed.

(** [flushFile] on a file that has no page in the pool returns at once: the
    state and the file are untouched. *)
Theorem flushFile_without_frames_is_noop f s :
  (∀ j, j < numBufs s → file (desc s j) ≠ f) →
  flushFile f s = (Ok tt, s).
Proof.
  intros Hnone. unfold flushFile. apply flushFile_loop_no_frame; [lia|done].
Qed.

Lemma flushFile_without_frames_is_noop_witness :
  flushFile 8 three_pages_unpinned = (Ok tt, three_pages_unpinned).
Proof.
  apply flushFile_without_frames_is_noop.
  intros j Hj.
  assert (Hn : numBufs three_pages_unpinned = 3) by (vm_compute; reflexivity).
  rewrite Hn in Hj.
  assert (j = 0 ∨ j = 1 ∨ j = 2) as [-> | [-> | ->]] by lia;
    vm_compute; discriminate.
Defined.

(** Flushing is idempotent: after a flush of a file that returned, a second
    flush of the same file returns and changes nothing. *)
Theorem flushFile_twice f s s' :
  wf s → f ≠ NULL → flushFile f s = (Ok tt, s') →
  flushFile f s' = (Ok tt, s').
Proof.
  intros Hwf Hf Hfl.
  destruct (flushFile_effect f s _ s' Hwf Hf Hfl)
    as (Hwf' & Hn' & _ & _ & new & _ & _ & Hr).
  apply flushFile_loop_no_frame; [lia|].
  intros j Hj. rewrite Hn' in Hj.
  destruct (Hr j Hj) as [Hsame Hother].
  destruct (decide (file (desc s j) = f)) as [He|Hne].
  - destruct (Hsame He) as (_ & -> & _). simpl. unfold NULL in *. congruence.
  - by rewrite (Hother Hne).
Qed.

Lemma flushFile_twice_witness :
  flushFile 7 (flushFile 7 three_pages_unpinned).2
    = (Ok tt, (flushFile 7 three_pages_unpinned).2).
Proof.
  apply (flushFile_twice 7 three_pages_unpinned).
  - unfold three_pages_unpinned, run_ops. simpl foldl.
    repeat (apply exec_wf; [|by (exact I || (unfold admissible, NULL; lia))|done]).
    apply wf_BufMgr_new. lia.
  - unfold NULL. lia.
  - vm_compute; reflexivity.
Defined.

(** Whether it returns or throws, [flushFile] touches nothing but unpinned
    frames of its file: the clock hand and the buffers are as before, every
    frame of another file and every pinned frame keeps its descriptor, the
    pages of other files stay in the index at their frames, and the only
    calls on the file are writes of buffers to the flushed file. *)
Theorem flushFile_touches_only_its_file f s :
  wf s → f ≠ NULL →
  clockHand (flushFile f s).2 = clockHand s ∧
  bufPool (flushFile f s).2 = bufPool s ∧
  (∀ j, j < numBufs s → file (desc s j) ≠ f ∨ 0 < pinCnt (desc s j) →
     desc (flushFile f s).2 j = desc s j) ∧
  (∀ g q, g ≠ f →
     hashTable (flushFile f s).2 !! (g, q) = hashTable s !! (g, q)) ∧
  ∃ new, ioLog (flushFile f s).2 = new ++ ioLog s ∧
    ∀ ev, ev ∈ new → ∃ j, ev = EvWritePage f (page_at s j).
Proof.
  intros Hwf Hf. destruct (flushFile f s) as [r s'] eqn:Hfl. simpl.
  destruct (flushFile_full_effect f s r s' Hwf Hf Hfl)
    as (Hwf' & Hn' & Hpool & Hc & Hsub & Hother & Hpinned & Hnew).
  split_and!; try done.
  - intros j Hj [Hne|Hpin]; [by apply Hother|by apply Hpinned].
  - intros g q Hg.
    destruct (hashTable s !! (g, q)) as [j|] eqn:Hlk.
    + destruct (wf_index _ Hwf _ _ _ Hlk) as (Hj & Hv & Hfj & Hpj).
      assert (Hd : desc s' j = desc s j) by (apply Hother; [done|congruence]).
      rewrite <- Hn' in Hj. rewrite <- Hd in Hv.
      destruct (wf_valid _ Hwf' j Hj Hv) as [_ Hlk'].
      rewrite Hd, Hfj, Hpj in Hlk'. done.
    + destruct (hashTable s' !! (g, q)) as [v|] eqn:Hlk'; [|done].
      apply Hsub in Hlk'. congruence.
Qed.

Lemma flushFile_touches_only_its_file_witness :
  clockHand (flushFile 7 one_pinned_one_unpinned).2
    = clockHand one_pinned_one_unpinned ∧
  bufPool (flushFile 7 one_pinned_one_unpinned).2
    = bufPool one_pinned_one_unpinned ∧
  (∀ j, j < numBufs one_pinned_one_unpinned →
     file (desc one_pinned_one_unpinned j) ≠ 7 ∨
     0 < pinCnt (desc one_pinned_one_unpinned j) →
     desc (flushFile 7 one_pinned_one_unpinned).2 j
       = desc one_pinned_one_unpinned j) ∧
  (∀ g q, g ≠ 7 →
     hashTable (flushFile 7 one_pinned_one_unpinned).2 !! (g, q)
       = hashTable one_pinned_one_unpinned !! (g, q)) ∧
  ∃ new, ioLog (flushFile 7 one_pinned_one_unpinned).2
           = new ++ ioLog one_pinned_one_unpinned ∧
    ∀ ev, ev ∈ new → ∃ j, ev = EvWritePage 7 (page_at one_pinned_one_unpinned j).
Proof.
  apply (flushFile_touches_only_its_file 7 one_pinned_one_unpinned).
  - unfold one_pinned_one_unpinned, run_ops. simpl foldl.
    repeat (apply exec_wf; [|by (exact I || (unfold admissible, NULL; lia))|done]).
    apply wf_BufMgr_new. lia.
  - unfold NULL. lia.
Defined.

(** ** What a pin protects *)

(** Installing a page in a frame the allocator returned leaves a pinned
    resident page where it is. *)
Lemma install_keeps_pinned s r s1 f p fr :
  wf s → allocBuf s = (r, s1) → resident s f p fr → 0 < pinCnt (desc s fr) →
  resident s1 f p fr ∧ valid (desc s1 fr) = true ∧
  page_at s1 fr = page_at s fr ∧
  ∀ fr0 g q pg ev, r = Ok fr0 → (g, q) ≠ (f, p) →
    let s2 := set_page fr0 pg (log_io ev s1) in
    let s3 := set_desc fr0 (BufDesc_Set g q (desc s2 fr0))
                (set_hashTable (<[(g, q) := fr0]> (hashTable s2)) s2) in
    ∀ d, resident (set_desc fr0 d s3) f p fr ∧
         valid (desc (set_desc fr0 d s3) fr) = true ∧
         page_at (set_desc fr0 d s3) fr = page_at s fr.
Proof.
  intros Hwf Ha Hres Hpin.
  destruct (wf_index _ Hwf _ _ _ Hres) as (Hfr & Hv & _).
  destruct (allocBuf_keeps_pinned s r s1 f p fr Hwf Ha Hres Hpin)
    as (Hres1 & Hrc & Hne).
  destruct (allocBuf_effect _ _ _ Hwf Ha) as (_ & _ & Hpool & _).
  destruct (refbit_cleared_fields _ _ Hrc) as (_ & _ & _ & _ & _ & Hv1 & _).
  assert (Hpg : page_at s1 fr = page_at s fr)
    by (unfold page_at; by rewrite Hpool).
  split_and!; try congruence.
  intros fr0 g q pg ev -> Hkey s2 s3 d. subst s3 s2.
  assert (Hfr0 : fr0 ≠ fr) by congruence.
  split_and!.
  - unfold resident. simpl. by rewrite lookup_insert_ne.
  - rewrite !desc_set_desc_ne by done.
    change (valid (desc s1 fr) = true). congruence.
  - unfold page_at. simpl. rewrite list_lookup_insert_ne by lia.
    exact Hpg.
Qed.

(** A pin holds a page in its frame.  Whatever public operation comes next,
    other than [disposePage] of that very page, a resident page with a pin
    is still resident in the same frame, the frame is valid, and its buffer
    is the same: fetches and allocations evict other frames, [flushFile]
    stops before it, [unPinPage] and [disposePage] of another page leave it
    alone. *)
Theorem pinned_page_survives o s f p fr :
  wf s → admissible o s → resident s f p fr → 0 < pinCnt (desc s fr) →
  o ≠ OpDisposePage f p →
  resident (exec o s) f p fr ∧ valid (desc (exec o s) fr) = true ∧
  page_at (exec o s) fr = page_at s fr.
Proof.
  intros Hwf Hadm Hres Hpin Hnot.
  destruct (wf_index _ Hwf _ _ _ Hres) as (Hfr & Hv & Hf & Hp).
  pose proof (wf_in_range _ _ Hwf Hfr) as Hr.
  unfold exec.
  destruct o as [g q od|g q b|g np c|g q|g]; simpl.
  - (* readPage *)
    rewrite discard_state.
    destruct (hashTable s !! (g, q)) as [fr'|] eqn:Hlk.
    + destruct (wf_index _ Hwf _ _ _ Hlk) as (Hfr' & _).
      rewrite (readPage_hit g q od s fr') by (done || by apply wf_in_range).
      simpl. split_and!; try done.
      destruct (decide (fr' = fr)) as [->|Hne].
      * by rewrite desc_set_desc_eq.
      * by rewrite desc_set_desc_ne.
    + rewrite readPage_miss by done.
      destruct (allocBuf s) as [r s1] eqn:Ha.
      destruct (install_keeps_pinned s r s1 f p fr Hwf Ha Hres Hpin)
        as (Hres1 & Hv1 & Hpg1 & Hinst).
      destruct r as [fr0|e]; [|done].
      destruct od as [pg|]; [|done].
      cbv zeta. simpl.
      apply (Hinst fr0 g q pg (EvReadPage g q) eq_refl).
      unfold resident in Hres. congruence.
  - (* unPinPage *)
    destruct (unPinPage_frame g q b s) as (_ & Hpool & Hh & _ & _ & Hsame & _).
    destruct (Hsame fr) as (_ & _ & _ & Hv' & _).
    split_and!.
    + unfold resident. by rewrite Hh.
    + congruence.
    + unfold page_at. by rewrite Hpool.
  - (* allocPage *)
    rewrite discard_state. destruct Hadm as [_ Hfresh].
    rewrite allocPage_eq.
    set (s0 := log_io (EvAllocatePage g np) s).
    assert (Hwf0 : wf s0) by by apply wf_log_io.
    destruct (allocBuf s0) as [r s1] eqn:Ha.
    destruct (install_keeps_pinned s0 r s1 f p fr Hwf0 Ha Hres Hpin)
      as (Hres1 & Hv1 & Hpg1 & Hinst).
    destruct r as [fr0|e]; [|done].
    assert (Hkey : (g, np) ≠ (f, p)) by (unfold resident in Hres; congruence).
    destruct c as [pg|]; cbv zeta; simpl.
    2:{ (* the read of the new page fails: only the index entry is added *)
      split_and!.
      - unfold resident. simpl. by rewrite lookup_insert_ne.
      - exact Hv1.
      - exact Hpg1. }
    destruct (Hinst fr0 g np pg (EvReadPage g np) eq_refl Hkey
                (BufDesc_Set g np (desc s1 fr0))) as (H1 & H2 & H3).
    assert (Hfr0 : fr0 ≠ fr).
    { destruct (allocBuf_keeps_pinned s0 _ s1 f p fr Hwf0 Ha Hres Hpin)
        as (_ & _ & Hne). congruence. }
    split_and!.
    + unfold resident. simpl. by rewrite lookup_insert_ne.
    + rewrite desc_set_desc_ne by done. exact Hv1.
    + unfold page_at. simpl. rewrite list_lookup_insert_ne by lia.
      exact Hpg1.
  - (* disposePage of another page *)
    assert (Hkey : (g, q) ≠ (f, p)) by congruence.
    rewrite disposePage_eq.
    destruct (hashTable s !! (g, q)) as [fr'|] eqn:Hlk; simpl; [|done].
    destruct (wf_index _ Hwf _ _ _ Hlk) as (_ & _ & Hg & Hq).
    assert (Hne : fr' ≠ fr) by congruence.
    split_and!.
    + unfold resident. simpl. by rewrite lookup_delete_ne.
    + change (valid (desc (set_desc fr' (BufDesc_Clear (desc s fr')) s) fr) = true).
      by rewrite desc_set_desc_ne.
    + done.
  - (* flushFile *)
    destruct (decide (g = NULL)) as [->|Hg].
    { unfold flushFile. rewrite flushFile_loop_NULL by (done || lia). done. }
    destruct (flushFile g s) as [r s'] eqn:Hfl. simpl.
    destruct (flushFile_full_effect g s r s' Hwf Hg Hfl)
      as (Hwf' & Hn' & Hpool & _ & _ & _ & Hpinned & _).
    assert (Hd : desc s' fr = desc s fr) by by apply Hpinned.
    split_and!.
    + rewrite <- Hn' in Hfr. rewrite <- Hd in Hv.
      destruct (wf_valid _ Hwf' fr Hfr Hv) as [_ Hlk].
      rewrite Hd, Hf, Hp in Hlk. exact Hlk.
    + congruence.
    + unfold page_at. by rewrite Hpool.
Qed.

Lemma pinned_page_survives_witness :
  resident (exec (OpReadPage 7 3 (Some [3])) one_pinned_one_unpinned) 7 1 0 ∧
  valid (desc (exec (OpReadPage 7 3 (Some [3])) one_pinned_one_unpinned) 0)
    = true ∧
  page_at (exec (OpReadPage 7 3 (Some [3])) one_pinned_one_unpinned) 0
    = page_at one_pinned_one_unpinned 0.
Proof.
  apply (pinned_page_survives (OpReadPage 7 3 (Some [3]))
           one_pinned_one_unpinned 7 1 0).
  - unfold one_pinned_one_unpinned, run_ops. simpl foldl.
    repeat (apply exec_wf; [|by (exact I || (unfold admissible, NULL; lia))|done]).
    apply wf_BufMgr_new. lia.
  - simpl. unfold NULL. lia.
  - vm_compute; reflexivity.
  - vm_compute; reflexivity.
  - discriminate.
Defined.

(** ** Fetch and unpin as a pair *)

(** A fetch that returns, followed by an unpin of the same page, balances:
    the unpin returns without error, the page is still resident in the frame
    the fetch gave, with the same buffer, and the pin count is what it was
    before the fetch (zero if the fetch brought the page in). *)
Theorem fetch_then_unpin_restores_pin_count s f p onDisk b fr s1 :
  wf s → f ≠ NULL → readPage f p onDisk s = (Ok fr, s1) →
  (unPinPage f p b s1).1 = Ok tt ∧
  resident (unPinPage f p b s1).2 f p fr ∧
  valid (desc (unPinPage f p b s1).2 fr) = true ∧
  page_at (unPinPage f p b s1).2 fr = page_at s1 fr ∧
  pinCnt (desc (unPinPage f p b s1).2 fr)
    = match hashTable s !! (f, p) with
      | Some _ => pinCnt (desc s fr)
      | None => 0
      end.
Proof.
  intros Hwf Hf Hread.
  assert (Hwf1 : wf s1).
  { replace s1 with (readPage f p onDisk s).2 by by rewrite Hread.
    by apply readPage_wf. }
  assert (Hafter : resident s1 f p fr ∧
            pinCnt (desc s1 fr) =
              match hashTable s !! (f, p) with
              | Some _ => pinCnt (desc s fr)
              | None => 0
              end + 1).
  { destruct (hashTable s !! (f, p)) as [fr'|] eqn:Hlk.
    - destruct (wf_index _ Hwf _ _ _ Hlk) as (Hfr' & _).
      pose proof (wf_in_range _ _ Hwf Hfr') as Hr.
      rewrite (readPage_hit f p onDisk s fr') in Hread by done.
      injection Hread as <- <-. split; [done|].
      by rewrite desc_set_desc_eq.
    - destruct (readPage_miss_pins_once _ _ _ _ _ _ Hwf Hlk Hread)
        as (Hres & -> & _). done. }
  destruct Hafter as [Hres1 Hpin1].
  destruct (wf_index _ Hwf1 _ _ _ Hres1) as (Hfr1 & Hv1 & _).
  pose proof (wf_in_range _ _ Hwf1 Hfr1) as Hr1.
  rewrite (unPinPage_pinned f p b s1 fr) by (done || lia). simpl.
  rewrite desc_set_desc_eq by done. simpl.
  split_and!; try done. lia.
Qed.

Lemma fetch_then_unpin_restores_pin_count_witness :
  (unPinPage 7 2 false (readPage 7 2 None one_pinned_one_unpinned).2).1 = Ok tt ∧
  pinCnt (desc (unPinPage 7 2 false
                  (readPage 7 2 None one_pinned_one_unpinned).2).2 1)
    = pinCnt (desc one_pinned_one_unpinned 1).
Proof.
  assert (Hwf : wf one_pinned_one_unpinned).
  { unfold one_pinned_one_unpinned, run_ops. simpl foldl.
    repeat (apply exec_wf; [|by (exact I || (unfold admissible, NULL; lia))|done]).
    apply wf_BufMgr_new. lia. }
  assert (Hread : readPage 7 2 None one_pinned_one_unpinned
                  = (Ok 1, (readPage 7 2 None one_pinned_one_unpinned).2))
    by (vm_compute; reflexivity).
  destruct (fetch_then_unpin_restores_pin_count _ 7 2 None false 1 _ Hwf
              ltac:(unfold NULL; lia) Hread) as (Hok & _ & _ & _ & Hpin).
  split; [exact Hok|]. rewrite Hpin. vm_compute; reflexivity.
Defined.

(** ** [printSelf] *)

Lemma printSelf_loop_count s turns i acc :
  printSelf_loop s turns i acc =
    acc + N.of_nat (length (filter (λ j, valid (desc s j) = true)
                              (N.of_nat <$> seq (N.to_nat i) turns))).
Proof.
  revert i acc. induction turns as [|turns IH]; intros i acc.
  { simpl. lia. }
  cbn [printSelf_loop seq fmap list_fmap]. rewrite IH, filter_cons.
  rewrite N2Nat.id. replace (N.to_nat (i + 1)) with (S (N.to_nat i)) by lia.
  destruct (valid (desc s i)) eqn:Hv.
  - rewrite decide_True by done. simpl length. lia.
  - rewrite decide_False by congruence. lia.
Qed.

(** The frames an index entry points to are exactly the valid frames, each
    named by one entry. *)
Lemma index_values_valid_frames s :
  wf s →
  (map_to_list (hashTable s)).*2 ≡ₚ
    filter (λ j, valid (desc s j) = true)
      (N.of_nat <$> seq 0 (N.to_nat (numBufs s))).
Proof.
  intros Hwf. apply NoDup_Permutation.
  - apply NoDup_fmap_2_strong; [|apply NoDup_map_to_list].
    intros [[f p] i] [[g q] j] Hx Hy Hij. simpl in Hij. subst j.
    apply elem_of_map_to_list in Hx, Hy.
    destruct (wf_index _ Hwf _ _ _ Hx) as (_ & _ & <- & <-).
    destruct (wf_index _ Hwf _ _ _ Hy) as (_ & _ & <- & <-). done.
  - apply NoDup_filter, NoDup_fmap_2; [apply _|apply NoDup_seq].
  - intros i. rewrite list_elem_of_filter, !list_elem_of_fmap. split.
    + intros ([[f p] j] & -> & Hin). simpl.
      apply elem_of_map_to_list in Hin.
      destruct (wf_index _ Hwf _ _ _ Hin) as (Hj & Hv & _).
      split; [done|]. exists (N.to_nat j). split; [lia|].
      apply elem_of_seq. lia.
    + intros (Hv & k & -> & Hk). apply elem_of_seq in Hk.
      destruct (wf_valid _ Hwf (N.of_nat k) ltac:(lia) Hv) as [_ Hlk].
      eexists (_, _, _). split; [|by apply elem_of_map_to_list]. done.
Qed.

(** On a well-formed pool the count [printSelf] reports is the number of
    pages in the index, it is at most [numBufs], and the call leaves the
    manager as it was. *)
Theorem printSelf_counts_resident_pages s :
  wf s → numBufs s < 2 ^ 31 →
  ∃ n, printSelf s = (Ok n, s) ∧
       n = N.of_nat (size (hashTable s)) ∧ n ≤ numBufs s.
Proof.
  intros Hwf _. eexists. split; [reflexivity|].
  rewrite printSelf_loop_count, N.add_0_l.
  change (N.to_nat 0) with 0%nat.
  pose proof (index_values_valid_frames s Hwf) as Hperm.
  apply Permutation_length in Hperm.
  rewrite length_fmap, length_map_to_list in Hperm. rewrite <- Hperm.
  split; [done|].
  rewrite Hperm.
  pose proof (length_filter (λ j, valid (desc s j) = true)
                (N.of_nat <$> seq 0 (N.to_nat (numBufs s)))) as Hle.
  rewrite length_fmap, length_seq in Hle. lia.
Qed.

Lemma printSelf_counts_resident_pages_witness :
  ∃ n, printSelf three_pages_unpinned = (Ok n, three_pages_unpinned) ∧
       n = N.of_nat (size (hashTable three_pages_unpinned)) ∧
       n ≤ numBufs three_pages_unpinned.
Proof.
  apply (printSelf_counts_resident_pages three_pages_unpinned).
  - unfold three_pages_unpinned, run_ops. simpl foldl.
    repeat (apply exec_wf; [|by (exact I || (unfold admissible, NULL; lia))|done]).
    apply wf_BufMgr_new. lia.
  - vm_compute; reflexivity.
Defined.

(** ** Filling a fresh pool *)

Lemma run_ops_snoc ops o s : run_ops (ops ++ [o]) s = exec o (run_ops ops s).
Proof. unfold run_ops. by rewrite foldl_app. Qed.

Lemma fetch_ops_snoc f ps p pg :
  fetch_ops f (ps ++ [(p, pg)]) = fetch_ops f ps ++ [OpReadPage f p (Some pg)].
Proof. unfold fetch_ops. by rewrite fmap_app. Qed.

Lemma fresh_pool_fill bufs f ps :
  0 < bufs < 2 ^ 32 - 1 → f ≠ NULL → NoDup ps.*1 →
  (length ps ≤ N.to_nat bufs)%nat →
  let s := run_ops (fetch_ops f ps) (BufMgr_new bufs) in
  wf s ∧ numBufs s = bufs ∧
  (clockHand s + 1) mod bufs = N.of_nat (length ps) mod bufs ∧
  (∀ i p pg, ps !! i = Some (p, pg) →
     valid (desc s (N.of_nat i)) = true ∧ file (desc s (N.of_nat i)) = f ∧
     pageNo (desc s (N.of_nat i)) = p ∧ pinCnt (desc s (N.of_nat i)) = 1 ∧
     page_at s (N.of_nat i) = pg) ∧
  (∀ j, N.of_nat (length ps) ≤ j < bufs → valid (desc s j) = false) ∧
  ioLog s = reverse ((λ pp, EvReadPage f pp.1) <$> ps).
Proof.
  intros Hb Hf. induction ps as [|[p pg] ps IH] using rev_ind; intros Hnd Hlen.
  { cbv zeta.
    change (run_ops (fetch_ops f []) (BufMgr_new bufs)) with (BufMgr_new bufs).
    split_and!; try done.
    - by apply wf_BufMgr_new.
    - cbn [clockHand BufMgr_new length]. rewrite wrap32_pred by done.
      replace (bufs - 1 + 1) with bufs by lia.
      by rewrite N.Div0.mod_same, N.Div0.mod_0_l.
    - intros j _. by rewrite desc_BufMgr_new. }
  rewrite fmap_app, NoDup_app in Hnd. destruct Hnd as (Hnd & Hnew & _).
  rewrite length_app in Hlen. simpl in Hlen.
  destruct (IH Hnd ltac:(lia)) as (Hwf & Hn & Hhand & Hfull & Hempty & Hio).
  rewrite fetch_ops_snoc, run_ops_snoc.
  set (s := run_ops (fetch_ops f ps) (BufMgr_new bufs)) in *.
  set (k := N.of_nat (length ps)).
  assert (Hk : k < bufs) by lia.
  cbv zeta. simpl. unfold exec. simpl. rewrite discard_state.
  (* the page is not in the pool *)
  assert (Hmiss : hashTable s !! (f, p) = None).
  { destruct (hashTable s !! (f, p)) as [j|] eqn:Hlk; [|done]. exfalso.
    destruct (wf_index _ Hwf _ _ _ Hlk) as (Hj & Hv & _ & Hp).
    rewrite Hn in Hj.
    destruct (N.lt_ge_cases j k) as [Hlt|Hge].
    - destruct (lookup_lt_is_Some_2 ps (N.to_nat j) ltac:(lia)) as [[p' pg'] Hi].
      destruct (Hfull _ _ _ Hi) as (_ & _ & Hp' & _).
      rewrite N2Nat.id in Hp'.
      apply (Hnew p); [|apply list_elem_of_singleton; done].
      apply list_elem_of_fmap. exists (p', pg'). split; [simpl; congruence|].
      by apply list_elem_of_lookup_2 in Hi.
    - rewrite (Hempty j ltac:(lia)) in Hv. done. }
  (* the allocator returns the first empty frame *)
  assert (Hnext : next_hand s = k).
  { unfold next_hand. rewrite next_hand_eq by done. rewrite Hn, Hhand.
    apply N.mod_small. lia. }
  assert (Ha : allocBuf s = (Ok k, set_clockHand k s)).
  { unfold allocBuf. rewrite allocBuf_loop_S, allocBuf_body_eq. cbv zeta.
    rewrite Hnext, (Hempty k ltac:(lia)). done. }
  pose proof (readPage_wf f p (Some pg) s Hwf Hf) as Hwf'.
  revert Hwf'. rewrite readPage_miss by done. rewrite Ha. cbv zeta.
  set (s2 := set_page k pg (log_io (EvReadPage f p) (set_clockHand k s))).
  set (s3 := set_desc k (BufDesc_Set f p (desc s2 k))
               (set_hashTable (<[(f, p) := k]> (hashTable s2)) s2)).
  simpl. intros Hwf'.
  assert (Hr : (N.to_nat k < length (bufDescTable s))%nat)
    by (apply wf_in_range; [done | by rewrite Hn]).
  assert (Hrp : (N.to_nat k < length (bufPool s))%nat)
    by (rewrite (wf_pool_len _ Hwf), Hn; lia).
  assert (Hdk : desc (set_desc k (with_refbit true (desc s3 k)) s3) k
                = with_refbit true (BufDesc_Set f p (desc s k))).
  { assert (Hd3 : desc s3 k = BufDesc_Set f p (desc s k))
      by (unfold s3; by apply desc_set_desc_eq).
    rewrite desc_set_desc_eq; [by rewrite Hd3|].
    unfold s3. simpl. by rewrite length_insert. }
  assert (Hdj : ∀ j, j ≠ k →
            desc (set_desc k (with_refbit true (desc s3 k)) s3) j = desc s j).
  { intros j Hj. unfold s3. by rewrite !desc_set_desc_ne. }
  assert (Hpk : page_at (set_desc k (with_refbit true (desc s3 k)) s3) k = pg).
  { unfold page_at. simpl. by rewrite list_lookup_insert_eq. }
  assert (Hpj : ∀ j, j ≠ k →
            page_at (set_desc k (with_refbit true (desc s3 k)) s3) j
            = page_at s j).
  { intros j Hj. unfold page_at. simpl. by rewrite list_lookup_insert_ne by lia. }
  rewrite length_app. simpl length.
  split_and!; try done.
  - simpl. f_equal. lia.
  - intros i q qg Hi.
    destruct (decide (i = length ps)) as [->|Hne].
    + rewrite lookup_app_r, Nat.sub_diag in Hi by lia. injection Hi as <- <-.
      fold k. rewrite Hdk, Hpk. done.
    + assert (Hlt : (i < length ps)%nat).
      { apply lookup_lt_Some in Hi. rewrite length_app in Hi. simpl in Hi. lia. }
      rewrite lookup_app_l in Hi by done.
      rewrite Hdj, Hpj by lia. by apply Hfull.
  - intros j Hj. rewrite Hdj by lia. apply Hempty. lia.
  - simpl. rewrite Hio, fmap_app, reverse_app. done.
Qed.

(** A fresh pool serves its first fetches from empty frames, in index
    order: after fetching at most [numBufs] distinct pages of a file that all
    exist, the i-th page fetched is resident in frame i with pin count 1 and
    its buffer holds what the file returned, the frames beyond are still
    empty, and the only calls on the file were the reads, one per page:
    nothing was evicted or written back. *)
Theorem fresh_pool_fills_in_frame_order bufs f ps :
  0 < bufs < 2 ^ 32 - 1 → f ≠ NULL → NoDup ps.*1 →
  (length ps ≤ N.to_nat bufs)%nat →
  (∀ i p pg, ps !! i = Some (p, pg) →
     resident (run_ops (fetch_ops f ps) (BufMgr_new bufs)) f p (N.of_nat i) ∧
     pinCnt (desc (run_ops (fetch_ops f ps) (BufMgr_new bufs)) (N.of_nat i)) = 1 ∧
     page_at (run_ops (fetch_ops f ps) (BufMgr_new bufs)) (N.of_nat i) = pg) ∧
  (∀ j, N.of_nat (length ps) ≤ j < bufs →
     valid (desc (run_ops (fetch_ops f ps) (BufMgr_new bufs)) j) = false) ∧
  ioLog (run_ops (fetch_ops f ps) (BufMgr_new bufs))
    = reverse ((λ pp, EvReadPage f pp.1) <$> ps).
Proof.
  intros Hb Hf Hnd Hlen.
  destruct (fresh_pool_fill bufs f ps Hb Hf Hnd Hlen)
    as (Hwf & Hn & _ & Hfull & Hempty & Hio).
  split_and!; try done.
  intros i p pg Hi. destruct (Hfull i p pg Hi) as (Hv & Hfi & Hp & Hpin & Hpg).
  split_and!; try done.
  assert (Hin : N.of_nat i < numBufs (run_ops (fetch_ops f ps) (BufMgr_new bufs))).
  { rewrite Hn. apply lookup_lt_Some in Hi. lia. }
  destruct (wf_valid _ Hwf _ Hin Hv) as [_ Hlk].
  unfold resident. by rewrite Hfi, Hp in Hlk.
Qed.

Lemma fresh_pool_fills_in_frame_order_witness :
  (∀ i p pg, [(5, [50]); (9, [90])] !! i = Some (p, pg) →
     resident (run_ops (fetch_ops 7 [(5, [50]); (9, [90])]) (BufMgr_new 3))
       7 p (N.of_nat i) ∧
     pinCnt (desc (run_ops (fetch_ops 7 [(5, [50]); (9, [90])]) (BufMgr_new 3))
               (N.of_nat i)) = 1 ∧
     page_at (run_ops (fetch_ops 7 [(5, [50]); (9, [90])]) (BufMgr_new 3))
       (N.of_nat i) = pg) ∧
  (∀ j, N.of_nat (length [(5, [50]); (9, [90])]) ≤ j < 3 →
     valid (desc (run_ops (fetch_ops 7 [(5, [50]); (9, [90])]) (BufMgr_new 3)) j)
       = false) ∧
  ioLog (run_ops (fetch_ops 7 [(5, [50]); (9, [90])]) (BufMgr_new 3))
    = reverse ((λ pp, EvReadPage 7 pp.1) <$> [(5, [50]); (9, [90])]).
Proof.
  apply (fresh_pool_fills_in_frame_order 3 7 [(5, [50]); (9, [90])]).
  - lia.
  - unfold NULL. lia.
  - simpl. apply NoDup_cons. split; [|apply NoDup_singleton].
    intros Hin. apply list_elem_of_singleton in Hin. discriminate.
  - simpl. lia.
Defined.

(** ** After a disposal *)

(** [disposePage] takes no notice of pins, so a holder's pin does not
    outlive it: right after a disposal the page is not resident, an unpin of
    it returns without error and changes nothing, and a fetch of it goes back
    to the file (or throws) instead of finding a frame. *)
Theorem disposePage_forgets_pins f p s b onDisk :
  hashTable (disposePage f p s).2 !! (f, p) = None ∧
  unPinPage f p b (disposePage f p s).2 = (Ok tt, (disposePage f p s).2) ∧
  (∀ fr s', readPage f p onDisk (disposePage f p s).2 = (Ok fr, s') →
     ∃ pg s1, onDisk = Some pg ∧
       allocBuf (disposePage f p s).2 = (Ok fr, s1) ∧
       ioLog s' = EvReadPage f p :: ioLog s1).
Proof.
  assert (Hgone : hashTable (disposePage f p s).2 !! (f, p) = None).
  { rewrite disposePage_eq.
    destruct (hashTable s !! (f, p)) as [fr|] eqn:Hlk; simpl; [|done].
    by rewrite lookup_delete_eq. }
  split_and!; [done| |].
  - by rewrite unPinPage_eq, Hgone.
  - intros fr s'. rewrite readPage_miss by done.
    destruct (allocBuf (disposePage f p s).2) as [[fr0|e] s1]; [|done].
    destruct onDisk as [pg|]; [|done].
    cbv zeta. intros [= -> <-]. by exists pg, s1.
Qed.

(** ** The exceptions that reach the caller *)


